(** * hw/riscv/sifive_uart.c: the SiFive UART model

    A shallow embedding of the register interface of the UART of the
    SiFive E300/U500 SoCs (the receive FIFO, the interrupt line and the
    register decode), and the properties of it that the design document
    states.

    Layout:
    - machine integers and the C conversions the code relies on;
    - [sifive_uart_h], the constants of hw/riscv/sifive_uart.h;
    - the device state, the collaborators it talks to, and the monad the
      handlers run in;
    - the handlers [update_irq], [uart_read], [uart_write], [uart_rx],
      [uart_can_rx], in the order of the C file;
    - the theorems. *)

From Stdlib Require Import ZArith Lia Ascii String.
From Stdlib.Strings Require Import Byte.
From stdpp Require Import base numbers list.

Local Open Scope Z_scope.

(** ** Machine integers *)

(** Conversion to [uint32_t] / [unsigned int]. *)
Definition to_uint32 (x : Z) : Z := x mod 2 ^ 32.

(** Conversion to [uint64_t] ([hwaddr], [size_t] on the hosts QEMU builds on). *)
Definition to_uint64 (x : Z) : Z := x mod 2 ^ 64.

(** Conversion to [int] (two's complement wrap-around, as gcc and clang do). *)
Definition to_int (x : Z) : Z := (x + 2 ^ 31) mod 2 ^ 32 - 2 ^ 31.

(** The value of an [unsigned char] / [uint8_t]. *)
Definition byte_val (b : byte) : Z := Z.of_N (Byte.to_N b).

(** Conversion to [unsigned char]. *)
Definition to_uchar (x : Z) : byte :=
  match Byte.of_N (Z.to_N (x mod 256)) with
  | Some b => b
  | None => x00
  end.

(** What the conversion [%x] of printf shows of an [int] argument: its
    32-bit pattern read as an unsigned number. *)
Definition printf_x (i : Z) : Z := to_uint32 i.

(** ** hw/riscv/sifive_uart.h

    The header is not part of the sources at hand.  Its enumeration
    constants are taken as parameters: the register offsets, and the
    receive-watermark bits of [ie] and [ip].  They have type [int]. *)
Class sifive_uart_h := {
  SIFIVE_UART_RXFIFO : Z;
  SIFIVE_UART_TXFIFO : Z;
  SIFIVE_UART_IE : Z;
  SIFIVE_UART_IP : Z;
  SIFIVE_UART_TXCTRL : Z;
  SIFIVE_UART_RXCTRL : Z;
  SIFIVE_UART_DIV : Z;
  SIFIVE_UART_IE_RXWM : Z;
  SIFIVE_UART_IP_RXWM : Z
}.

(** A [case] label of a [switch] over a [hwaddr]: the constant converted
    to the type of the controlling expression. *)
Definition case_label (c : Z) : Z := to_uint64 c.

(** Modelled from the spec: the declaration [uint8_t rx_fifo[...]] of
    sifive_uart.h is missing; the design document gives the receive FIFO
    a fixed capacity of 8 entries. *)
Definition sizeof_rx_fifo : Z := 8.

(** Modelled from the spec: the register map of the design document
    (section 6), with the receive-watermark bit where the device's manual
    has it (bit 1 of [ie] and of [ip]). *)
Definition spec_register_map : sifive_uart_h := {|
  SIFIVE_UART_RXFIFO := 0x00;
  SIFIVE_UART_TXFIFO := 0x04;
  SIFIVE_UART_IE := 0x08;
  SIFIVE_UART_IP := 0x0C;
  SIFIVE_UART_TXCTRL := 0x10;
  SIFIVE_UART_RXCTRL := 0x14;
  SIFIVE_UART_DIV := 0x18;
  SIFIVE_UART_IE_RXWM := 2;
  SIFIVE_UART_IP_RXWM := 2
|}.

(** ** The device and its collaborators *)

(** Modelled from the spec: [SiFiveUARTState] is declared in
    sifive_uart.h, which is missing.  The fields are those the handlers
    use; after the design document the registers hold 32-bit values and
    the FIFO is an array of bytes with a length counter ([unsigned int]
    here).  [rx_fifo] is the whole array, [rx_fifo_len] the number of
    bytes of it in use. *)
Record SiFiveUARTState := mkUART {
  rx_fifo : list byte;
  rx_fifo_len : Z;
  ie : Z;
  txctrl : Z;
  rxctrl : Z;
  div : Z
}.

Definition set_rx_fifo (a : list byte) (s : SiFiveUARTState) :=
  mkUART a (rx_fifo_len s) (ie s) (txctrl s) (rxctrl s) (div s).
Definition set_rx_fifo_len (n : Z) (s : SiFiveUARTState) :=
  mkUART (rx_fifo s) n (ie s) (txctrl s) (rxctrl s) (div s).
Definition set_ie (v : Z) (s : SiFiveUARTState) :=
  mkUART (rx_fifo s) (rx_fifo_len s) v (txctrl s) (rxctrl s) (div s).
Definition set_txctrl (v : Z) (s : SiFiveUARTState) :=
  mkUART (rx_fifo s) (rx_fifo_len s) (ie s) v (rxctrl s) (div s).
Definition set_rxctrl (v : Z) (s : SiFiveUARTState) :=
  mkUART (rx_fifo s) (rx_fifo_len s) (ie s) (txctrl s) v (div s).
Definition set_div (v : Z) (s : SiFiveUARTState) :=
  mkUART (rx_fifo s) (rx_fifo_len s) (ie s) (txctrl s) (rxctrl s) v.

(** What the device does to the world besides its own state and the
    interrupt line, in the order it happens. *)
Inductive event :=
  | chr_fe_write (buf : list byte)   (* qemu_chr_fe_write(&s->chr, buf, len) *)
  | chr_fe_accept_input              (* qemu_chr_fe_accept_input(&s->chr) *)
  | printf (msg : string).           (* printf(msg) *)

(** The device with the level of the line [s->irq] and the events so far. *)
Record Machine := mkMachine {
  uart : SiFiveUARTState;
  irq : bool;
  trace : list event
}.

(** The two messages of [hw_error] in the file, with the arguments of
    their formats. *)
Inductive hw_error_msg :=
  | bad_read (func : string) (addr : Z)       (* "%s: bad read: addr=0x%x\n" *)
  | bad_write (func : string) (addr v : Z).   (* "%s: bad write: addr=0x%x v=0x%x\n" *)

(** How a handler ends: it returns, or [hw_error] stops the emulator, or
    it reaches outside an array (undefined in C). *)
Inductive outcome (A : Type) :=
  | Ret (a : A) (m : Machine)
  | HwError (msg : hw_error_msg)
  | Undefined.
Arguments Ret {A} a m.
Arguments HwError {A} msg.
Arguments Undefined {A}.

Definition M (A : Type) : Type := Machine -> outcome A.

#[global] Instance M_ret : MRet M := fun A a m => Ret a m.
#[global] Instance M_bind : MBind M := fun A B k c m =>
  match c m with
  | Ret a m' => k a m'
  | HwError e => HwError e
  | Undefined => Undefined
  end.

Definition get : M SiFiveUARTState := fun m => Ret (uart m) m.
Definition put (s : SiFiveUARTState) : M unit :=
  fun m => Ret tt (mkMachine s (irq m) (trace m)).
Definition emit (e : event) : M unit :=
  fun m => Ret tt (mkMachine (uart m) (irq m) (trace m ++ [e])).
Definition qemu_irq_raise : M unit :=
  fun m => Ret tt (mkMachine (uart m) true (trace m)).
Definition qemu_irq_lower : M unit :=
  fun m => Ret tt (mkMachine (uart m) false (trace m)).
Definition hw_error {A} (msg : hw_error_msg) : M A := fun _ => HwError msg.
Definition undefined {A} : M A := fun _ => Undefined.

(** [a[i]] *)
Definition load (a : list byte) (i : Z) : M byte :=
  if (0 <=? i) && (i <? Z.of_nat (length a)) then
    match a !! Z.to_nat i with
    | Some b => mret b
    | None => undefined
    end
  else undefined.

(** [a[i] = b] *)
Definition store (a : list byte) (i : Z) (b : byte) : M (list byte) :=
  if (0 <=? i) && (i <? Z.of_nat (length a)) then mret (<[Z.to_nat i := b]> a)
  else undefined.

(** [memmove(a + dst, a + src, n)]: the [n] bytes from [src] on, as they
    were before the call, land at [dst] on. *)
Definition memmove (a : list byte) (dst src n : Z) : M (list byte) :=
  if (0 <=? dst) && (0 <=? src) && (0 <=? n)
     && (dst + n <=? Z.of_nat (length a)) && (src + n <=? Z.of_nat (length a))
  then mret (take (Z.to_nat dst) a
             ++ take (Z.to_nat n) (drop (Z.to_nat src) a)
             ++ drop (Z.to_nat (dst + n)) a)
  else undefined.

(** ** The handlers *)

Section Handlers.
Context {hdr : sifive_uart_h}.

Definition update_irq : M unit :=
  s ← get;
  let cond :=
    if negb (Z.land (ie s) (to_uint32 SIFIVE_UART_IE_RXWM) =? 0)
       && negb (rx_fifo_len s =? 0)
    then 1 else 0 in
  if negb (cond =? 0) then qemu_irq_raise else qemu_irq_lower.

Definition uart_read (addr : Z) (size : Z) : M Z :=
  s ← get;
  if addr =? case_label SIFIVE_UART_RXFIFO then
    if negb (rx_fifo_len s =? 0) then
      r ← load (rx_fifo s) 0;
      a ← memmove (rx_fifo s) 0 1 (to_uint64 (to_uint32 (rx_fifo_len s - 1)));
      put (set_rx_fifo a s);;
      s ← get;
      put (set_rx_fifo_len (to_uint32 (rx_fifo_len s - 1)) s);;
      emit chr_fe_accept_input;;
      update_irq;;
      mret (to_uint64 (byte_val r))
    else mret 0x80000000
  else if addr =? case_label SIFIVE_UART_TXFIFO then
    mret 0
  else if addr =? case_label SIFIVE_UART_IE then
    mret (to_uint64 (ie s))
  else if addr =? case_label SIFIVE_UART_IP then
    mret (to_uint64 (if negb (rx_fifo_len s =? 0) then SIFIVE_UART_IP_RXWM else 0))
  else if addr =? case_label SIFIVE_UART_TXCTRL then
    mret (to_uint64 (txctrl s))
  else if addr =? case_label SIFIVE_UART_RXCTRL then
    mret (to_uint64 (rxctrl s))
  else if addr =? case_label SIFIVE_UART_DIV then
    mret (to_uint64 (div s))
  else
    hw_error (bad_read "uart_read" (printf_x (to_int addr))).

Definition uart_write (addr : Z) (val64 : Z) (size : Z) : M unit :=
  let value := to_uint32 val64 in
  let ch := to_uchar value in
  if addr =? case_label SIFIVE_UART_TXFIFO then
    emit (chr_fe_write [ch])
  else if addr =? case_label SIFIVE_UART_IE then
    s ← get;
    put (set_ie (to_uint32 val64) s);;
    update_irq
  else if addr =? case_label SIFIVE_UART_TXCTRL then
    s ← get;
    put (set_txctrl (to_uint32 val64) s)
  else if addr =? case_label SIFIVE_UART_RXCTRL then
    s ← get;
    put (set_rxctrl (to_uint32 val64) s)
  else if addr =? case_label SIFIVE_UART_DIV then
    s ← get;
    put (set_div (to_uint32 val64) s)
  else
    hw_error (bad_write "uart_write" (printf_x (to_int addr))
                                     (printf_x (to_int value))).

(** The text of the overrun warning, with its final newline. *)
Definition dropped_char_warning : string :=
  String.append "WARNING: UART dropped char."
                (String (ascii_of_nat 10) EmptyString).

Definition uart_rx (buf : list byte) (size : Z) : M unit :=
  s ← get;
  if sizeof_rx_fifo <=? rx_fifo_len s then
    emit (printf dropped_char_warning)
  else
    b ← load buf 0;
    a ← store (rx_fifo s) (rx_fifo_len s) b;
    put (set_rx_fifo_len (to_uint32 (rx_fifo_len s + 1)) (set_rx_fifo a s));;
    update_irq.

Definition uart_can_rx : M Z :=
  s ← get;
  mret (if rx_fifo_len s <? sizeof_rx_fifo then 1 else 0).

Definition uart_event (event : Z) : M unit := mret tt.

End Handlers.

(** [g_malloc0] in [sifive_uart_create]: every field of the device is
    zero.  The line is the caller's and is left as it is given.  The
    wiring of the backend and of the memory region is the host's business
    and is not recorded. *)
Definition sifive_uart_create (irq_line : bool) : Machine :=
  mkMachine (mkUART (replicate (Z.to_nat sizeof_rx_fifo) x00) 0 0 0 0 0)
            irq_line [].

(** ** The register map and the header's side conditions *)

Section Header.
Context {hdr : sifive_uart_h}.

(** The offsets [uart_read] has a [case] for, in the order of its [switch]. *)
Definition register_map : list Z :=
  case_label <$> [SIFIVE_UART_RXFIFO; SIFIVE_UART_TXFIFO; SIFIVE_UART_IE;
                  SIFIVE_UART_IP; SIFIVE_UART_TXCTRL; SIFIVE_UART_RXCTRL;
                  SIFIVE_UART_DIV].

(** The offsets [uart_write] has a [case] for. *)
Definition writable_map : list Z :=
  case_label <$> [SIFIVE_UART_TXFIFO; SIFIVE_UART_IE; SIFIVE_UART_TXCTRL;
                  SIFIVE_UART_RXCTRL; SIFIVE_UART_DIV].

(** The offsets [uart_write] has no [case] for. *)
Definition read_only_map : list Z :=
  case_label <$> [SIFIVE_UART_RXFIFO; SIFIVE_UART_IP].

(** No two registers share an offset.  A C compiler rejects a [switch]
    with two equal [case] labels, so every header the file compiles
    against satisfies it. *)
Definition labels_distinct : Prop := NoDup register_map.

(** The position of the receive-watermark bit in [ie]. *)
Definition rxwm_bit : Z := Z.log2 (to_uint32 SIFIVE_UART_IE_RXWM).

(** [SIFIVE_UART_IE_RXWM] is one bit. *)
Definition rxwm_single_bit : Prop :=
  to_uint32 SIFIVE_UART_IE_RXWM = 2 ^ rxwm_bit.

End Header.

(** ** State predicates *)

(** The bytes waiting in the FIFO, oldest first. *)
Definition fifo (s : SiFiveUARTState) : list byte :=
  take (Z.to_nat (rx_fifo_len s)) (rx_fifo s).

(** [0 <= rx_fifo_len <= capacity] *)
Definition fifo_len_ok (m : Machine) : Prop :=
  0 <= rx_fifo_len (uart m) <= 8.

(** The array has the size its declaration gives it. *)
Definition rx_fifo_sized (m : Machine) : Prop :=
  length (rx_fifo (uart m)) = 8%nat.

(** The level the line should have: raised iff the receive-watermark
    bit of [ie] is set and the FIFO is not empty. *)
Definition irq_cond {hdr : sifive_uart_h} (s : SiFiveUARTState) : bool :=
  Z.testbit (ie s) rxwm_bit && (0 <? rx_fifo_len s).

Definition irq_ok {hdr : sifive_uart_h} (m : Machine) : Prop :=
  irq m = irq_cond (uart m).

(** ** Operations, as the bus and the backend issue them *)

Inductive op :=
  | bus_read (addr : Z) (size : Z)
  | bus_write (addr : Z) (val64 : Z) (size : Z)
  | chr_read (buf : list byte) (size : Z)
  | chr_can_read.

Definition step {hdr : sifive_uart_h} (o : op) : M unit :=
  match o with
  | bus_read addr size => uart_read addr size;; mret tt
  | bus_write addr val64 size => uart_write addr val64 size
  | chr_read buf size => uart_rx buf size
  | chr_can_read => uart_can_rx;; mret tt
  end.

Fixpoint run {hdr : sifive_uart_h} (os : list op) : M unit :=
  match os with
  | [] => mret tt
  | o :: os' => step o;; run os'
  end.

(** [deliver bs]: the backend hands over the bytes [bs], one call of
    [uart_rx] each. *)
Fixpoint deliver {hdr : sifive_uart_h} (bs : list byte) : M unit :=
  match bs with
  | [] => mret tt
  | b :: bs' => uart_rx [b] 1;; deliver bs'
  end.

(** [read_rxfifo n]: [n] reads of RXFIFO, the values read in order. *)
Fixpoint read_rxfifo {hdr : sifive_uart_h} (n : nat) : M (list Z) :=
  match n with
  | O => mret []
  | S n' =>
      r ← uart_read (case_label SIFIVE_UART_RXFIFO) 4;
      rs ← read_rxfifo n';
      mret (r :: rs)
  end.

(** ** The effect of the handlers on the device *)

(** The condition [update_irq] computes, as the code writes it. *)
Definition irq_level {hdr : sifive_uart_h} (s : SiFiveUARTState) : bool :=
  negb (Z.land (ie s) (to_uint32 SIFIVE_UART_IE_RXWM) =? 0)
  && negb (rx_fifo_len s =? 0).

(** The device after [rx_fifo[rx_fifo_len++] = b], the length not
    wrapping around. *)
Definition pushed (b : byte) (s : SiFiveUARTState) : SiFiveUARTState :=
  set_rx_fifo_len (rx_fifo_len s + 1)
    (set_rx_fifo (<[Z.to_nat (rx_fifo_len s) := b]> (rx_fifo s)) s).

(** The device after the [memmove] and the [rx_fifo_len--] of
    [uart_read], for a length that is not zero. *)
Definition popped (s : SiFiveUARTState) : SiFiveUARTState :=
  let n := Z.to_nat (rx_fifo_len s - 1) in
  set_rx_fifo_len (rx_fifo_len s - 1)
    (set_rx_fifo (take n (drop 1 (rx_fifo s)) ++ drop n (rx_fifo s)) s).

(** ** Machines to run the handlers on *)

(** A machine straight out of [sifive_uart_create], its line lowered. *)
Definition fresh_machine : Machine := sifive_uart_create false.

(** A machine whose FIFO holds the eight bytes "ABCDEFGH". *)
Definition full_machine : Machine :=
  mkMachine (mkUART [x41; x42; x43; x44; x45; x46; x47; x48] 8 0 0 0 0)
            false [].

(** Whether a handler ended in [hw_error]. *)
Definition is_hw_error {A} (o : outcome A) : bool :=
  match o with HwError _ => true | _ => false end.

(** No access to an offset of the register map ends in [hw_error]. *)
Definition mapped_access_never_fatal {hdr : sifive_uart_h} : Prop :=
  forall addr, addr ∈ register_map ->
    forall v size m,
      is_hw_error (uart_read addr size m) = false
      /\ is_hw_error (uart_write addr v size m) = false.

(** ** The FIFO as a bounded queue *)

(** The sentinel a read of RXFIFO returns when no byte is waiting. *)
Definition rxfifo_empty_flag : Z := 0x80000000.

(** What an operation does to a queue of at most 8 waiting bytes: a read
    of RXFIFO takes the oldest byte away, a delivery puts its first byte
    behind the others if there are fewer than 8, and nothing else touches
    the queue. *)
Definition queue_step {hdr : sifive_uart_h} (o : op) (q : list byte) : list byte :=
  match o with
  | bus_read addr _ =>
      if addr =? case_label SIFIVE_UART_RXFIFO then drop 1 q else q
  | chr_read (b :: _) _ =>
      if Z.of_nat (length q) <? 8 then q ++ [b] else q
  | _ => q
  end.

Definition queue_run {hdr : sifive_uart_h} (os : list op) (q : list byte) : list byte :=
  foldl (fun q o => queue_step o q) q os.

(** A delivery hands over at least one byte. *)
Definition has_byte (o : op) : Prop :=
  match o with
  | chr_read [] _ => False
  | _ => True
  end.

(** An operation the device has a [case] for: a read on the register
    map, a write to a register that can be written, a delivery with a
    byte in it, a flow-control query. *)
Definition legal {hdr : sifive_uart_h} (o : op) : Prop :=
  match o with
  | bus_read addr _ => addr ∈ register_map
  | bus_write addr _ _ => addr ∈ writable_map
  | chr_read buf _ => buf <> []
  | chr_can_read => True
  end.

(** The registers a write stores and a read returns as stored. *)
Inductive plain_reg := reg_ie | reg_txctrl | reg_rxctrl | reg_div.

Definition reg_offset {hdr : sifive_uart_h} (r : plain_reg) : Z :=
  case_label match r with
             | reg_ie => SIFIVE_UART_IE
             | reg_txctrl => SIFIVE_UART_TXCTRL
             | reg_rxctrl => SIFIVE_UART_RXCTRL
             | reg_div => SIFIVE_UART_DIV
             end.

Definition reg_value (r : plain_reg) (s : SiFiveUARTState) : Z :=
  match r with
  | reg_ie => ie s
  | reg_txctrl => txctrl s
  | reg_rxctrl => rxctrl s
  | reg_div => div s
  end.

(** The registers hold 32-bit values. *)
Definition regs_in_range (m : Machine) : Prop :=
  forall r, 0 <= reg_value r (uart m) < 2 ^ 32.

(** ** Tactics *)

(** Open the monad: every handler becomes a function of the machine. *)
Ltac monad_unfold :=
  unfold mbind, M_bind, mret, M_ret, get, put, emit, hw_error, undefined,
    qemu_irq_raise, qemu_irq_lower in *.

(** Turn [labels_distinct] into the inequalities between labels. *)
Ltac split_labels H :=
  unfold labels_distinct, register_map in H;
  cbn [fmap list_fmap] in H;
  repeat (let Hn := fresh "Hn" in apply NoDup_cons in H as [Hn H]);
  repeat match goal with
         | Hn : _ ∉ _ :: _ |- _ =>
             let Hne := fresh "Hne" in
             apply not_elem_of_cons in Hn as [Hne Hn]
         end.

(** Settle a decidable statement about concrete data by evaluation. *)
Ltac by_decision := apply (bool_decide_unpack _); vm_compute; exact I.

(** Walk down the [switch]: decide each comparison with a label. *)
Ltac decode :=
  repeat match goal with
         | |- context [?a =? case_label ?c] =>
             destruct (Z.eqb_spec a (case_label c)); try congruence
         end.

(** ** Arithmetic of the conversions *)

Lemma to_uint32_small x : 0 <= x < 2 ^ 32 -> to_uint32 x = x.
Proof. intros; unfold to_uint32; apply Z.mod_small; lia. Qed.

Lemma to_uint64_small x : 0 <= x < 2 ^ 64 -> to_uint64 x = x.
Proof. intros; unfold to_uint64; apply Z.mod_small; lia. Qed.

Lemma to_uint32_range x : 0 <= to_uint32 x < 2 ^ 32.
Proof. unfold to_uint32; apply Z.mod_pos_bound; lia. Qed.

Lemma printf_x_to_int x : printf_x (to_int x) = x mod 2 ^ 32.
Proof.
  unfold printf_x, to_int, to_uint32.
  rewrite Zminus_mod_idemp_l.
  replace (x + 2 ^ 31 - 2 ^ 31) with x by lia. reflexivity.
Qed.

Lemma byte_val_range b : 0 <= byte_val b < 256.
Proof.
  unfold byte_val. pose proof (Byte.to_N_bounded b). lia.
Qed.

Lemma byte_val_to_uchar x : byte_val (to_uchar x) = x mod 256.
Proof.
  unfold byte_val, to_uchar.
  assert (Hr : 0 <= x mod 256 < 256) by (apply Z.mod_pos_bound; lia).
  destruct (Byte.of_N (Z.to_N (x mod 256))) as [b|] eqn:E.
  - apply Byte.to_of_N in E. rewrite E. lia.
  - apply Byte.of_N_None_iff in E. lia.
Qed.

Lemma land_pow2_eqb x k :
  0 <= k -> (Z.land x (2 ^ k) =? 0) = negb (Z.testbit x k).
Proof.
  intros Hk.
  assert (E : Z.land x (2 ^ k) = if Z.testbit x k then 2 ^ k else 0).
  { apply Z.bits_inj'. intros n Hn.
    rewrite Z.land_spec, Z.pow2_bits_eqb by lia.
    destruct (Z.eqb_spec k n) as [->|Hne].
    - destruct (Z.testbit x n); simpl.
      + rewrite Z.pow2_bits_eqb, Z.eqb_refl by lia. reflexivity.
      + rewrite Z.bits_0. reflexivity.
    - rewrite andb_false_r.
      destruct (Z.testbit x k).
      + rewrite Z.pow2_bits_eqb by lia. symmetry. apply Z.eqb_neq. exact Hne.
      + rewrite Z.bits_0. reflexivity. }
  rewrite E. destruct (Z.testbit x k); simpl.
  - apply Z.eqb_neq. pose proof (Z.pow_pos_nonneg 2 k). lia.
  - reflexivity.
Qed.

(** ** The handlers, one equation each *)

Section HandlerEquations.
Context {hdr : sifive_uart_h}.

Lemma update_irq_eq m :
  update_irq m = Ret tt (mkMachine (uart m) (irq_level (uart m)) (trace m)).
Proof.
  unfold update_irq, irq_level. monad_unfold.
  destruct (negb (Z.land _ _ =? 0) && negb (_ =? 0)); reflexivity.
Qed.

Lemma irq_level_cond s :
  rxwm_single_bit -> 0 <= rx_fifo_len s -> irq_level s = irq_cond s.
Proof.
  unfold rxwm_single_bit, irq_level, irq_cond. intros Hbit Hlen.
  rewrite Hbit, land_pow2_eqb by apply Z.log2_nonneg.
  rewrite negb_involutive. f_equal.
  destruct (Z.eqb_spec (rx_fifo_len s) 0), (Z.ltb_spec 0 (rx_fifo_len s));
    simpl; auto; lia.
Qed.

Lemma rxwm_bit_range : 0 <= rxwm_bit < 32.
Proof.
  unfold rxwm_bit. split; [apply Z.log2_nonneg|].
  pose proof (to_uint32_range SIFIVE_UART_IE_RXWM) as [H0 H1].
  destruct (Z.eq_dec (to_uint32 SIFIVE_UART_IE_RXWM) 0) as [->|Hne]; [simpl; lia|].
  apply Z.log2_lt_pow2; lia.
Qed.

(** [uart_rx] with room in the FIFO: the first byte of the buffer goes to
    the slot after the last one in use. *)
Lemma uart_rx_room m b rest size :
  rx_fifo_sized m -> 0 <= rx_fifo_len (uart m) < 8 ->
  uart_rx (b :: rest) size m
  = Ret tt (mkMachine (pushed b (uart m)) (irq_level (pushed b (uart m)))
                      (trace m)).
Proof.
  unfold rx_fifo_sized. intros Hsz Hlen.
  unfold uart_rx, load, store, sizeof_rx_fifo, pushed. monad_unfold. simpl.
  destruct (Z.leb_spec 8 (rx_fifo_len (uart m))); [lia|].
  rewrite Hsz.
  destruct (Z.leb_spec 0 (rx_fifo_len (uart m))); [|lia].
  destruct (Z.ltb_spec (rx_fifo_len (uart m)) (Z.of_nat 8)); [|lia].
  simpl. rewrite update_irq_eq. simpl.
  rewrite to_uint32_small by lia. reflexivity.
Qed.

(** [uart_rx] with the FIFO full: a warning and nothing else. *)
Lemma uart_rx_full m buf size :
  8 <= rx_fifo_len (uart m) ->
  uart_rx buf size m
  = Ret tt (mkMachine (uart m) (irq m) (trace m ++ [printf dropped_char_warning])).
Proof.
  intros Hlen. unfold uart_rx, sizeof_rx_fifo. monad_unfold.
  destruct (Z.leb_spec 8 (rx_fifo_len (uart m))); [reflexivity|lia].
Qed.

(** A read of RXFIFO with the FIFO empty. *)
Lemma uart_read_rxfifo_empty m size :
  rx_fifo_len (uart m) = 0 ->
  uart_read (case_label SIFIVE_UART_RXFIFO) size m = Ret 0x80000000 m.
Proof.
  intros Hlen. unfold uart_read. monad_unfold.
  rewrite Z.eqb_refl, Hlen. reflexivity.
Qed.

(** A read of RXFIFO with bytes waiting: the byte at the head is
    returned and the others move down one slot. *)
Lemma uart_read_rxfifo_pop m size b tl :
  rx_fifo_sized m -> 0 < rx_fifo_len (uart m) <= 8 ->
  rx_fifo (uart m) = b :: tl ->
  uart_read (case_label SIFIVE_UART_RXFIFO) size m
  = Ret (byte_val b)
        (mkMachine (popped (uart m)) (irq_level (popped (uart m)))
                   (trace m ++ [chr_fe_accept_input])).
Proof.
  unfold rx_fifo_sized. intros Hsz Hlen Harr.
  unfold uart_read, load, memmove, popped. monad_unfold.
  rewrite Z.eqb_refl.
  destruct (Z.eqb_spec (rx_fifo_len (uart m)) 0); [lia|]. simpl.
  rewrite Hsz, Harr. simpl.
  rewrite to_uint32_small by lia.
  rewrite to_uint64_small by lia.
  rewrite !(proj2 (Z.leb_le _ _)) by lia.
  simpl. rewrite update_irq_eq. simpl.
  replace (0 + (rx_fifo_len (uart m) - 1)) with (rx_fifo_len (uart m) - 1) by lia.
  rewrite to_uint64_small by (pose proof (byte_val_range b); lia).
  reflexivity.
Qed.

End HandlerEquations.

(** ** The FIFO seen as a queue *)

Lemma fifo_pushed b s :
  0 <= rx_fifo_len s < Z.of_nat (length (rx_fifo s)) ->
  fifo (pushed b s) = fifo s ++ [b].
Proof.
  intros H. unfold fifo, pushed. simpl.
  replace (Z.to_nat (rx_fifo_len s + 1)) with (S (Z.to_nat (rx_fifo_len s)))
    by lia.
  rewrite (take_S_r _ _ b) by (apply list_lookup_insert_eq; lia).
  rewrite take_insert_ge by lia. reflexivity.
Qed.

Lemma fifo_popped s :
  0 < rx_fifo_len s <= Z.of_nat (length (rx_fifo s)) ->
  fifo (popped s) = drop 1 (fifo s).
Proof.
  intros H. unfold fifo, popped. simpl.
  rewrite take_app_length' by (rewrite length_take_le; [lia|rewrite length_drop; lia]).
  rewrite take_drop_commute. f_equal. f_equal. lia.
Qed.

Lemma fifo_head s b tl :
  0 < rx_fifo_len s -> rx_fifo s = b :: tl -> head (fifo s) = Some b.
Proof.
  intros H E. unfold fifo. rewrite E.
  destruct (Z.to_nat (rx_fifo_len s)) eqn:En; [lia|]. reflexivity.
Qed.

Lemma popped_sized s :
  0 < rx_fifo_len s <= Z.of_nat (length (rx_fifo s)) ->
  length (rx_fifo (popped s)) = length (rx_fifo s).
Proof.
  intros H. unfold popped. simpl.
  rewrite length_app, length_take_le by (rewrite length_drop; lia).
  rewrite length_drop. lia.
Qed.

Section Queue.
Context {hdr : sifive_uart_h}.

(** Delivering [bs] to a FIFO with room for them queues them behind the
    bytes already waiting. *)
Lemma deliver_queues bs : forall m,
  rx_fifo_sized m -> 0 <= rx_fifo_len (uart m) ->
  rx_fifo_len (uart m) + Z.of_nat (length bs) <= 8 ->
  exists m', deliver bs m = Ret tt m'
    /\ rx_fifo_sized m'
    /\ rx_fifo_len (uart m') = rx_fifo_len (uart m) + Z.of_nat (length bs)
    /\ fifo (uart m') = fifo (uart m) ++ bs.
Proof.
  induction bs as [|b bs IH]; intros m Hsz H0 Hroom; simpl in *.
  - exists m. rewrite app_nil_r. repeat split; auto; lia.
  - unfold mbind, M_bind.
    rewrite uart_rx_room by (auto; lia).
    unfold rx_fifo_sized in Hsz.
    destruct (IH (mkMachine (pushed b (uart m)) (irq_level (pushed b (uart m)))
                            (trace m))) as (m' & Hrun & Hsz' & Hlen' & Hq).
    + unfold rx_fifo_sized. simpl. rewrite length_insert. exact Hsz.
    + simpl. lia.
    + simpl. lia.
    + exists m'. simpl in *. repeat split; auto; [lia|].
      rewrite Hq, fifo_pushed by lia. rewrite <- app_assoc. reflexivity.
Qed.

(** Reading RXFIFO as many times as bytes are waiting returns them,
    oldest first, and leaves the FIFO empty. *)
Lemma read_rxfifo_drains n : forall m,
  rx_fifo_sized m -> rx_fifo_len (uart m) = Z.of_nat n -> (n <= 8)%nat ->
  exists m', read_rxfifo n m = Ret (byte_val <$> fifo (uart m)) m'
    /\ rx_fifo_len (uart m') = 0.
Proof.
  induction n as [|n IH]; intros m Hsz Hlen Hn.
  - exists m. unfold fifo. rewrite Hlen. simpl. auto.
  - pose proof Hsz as Hsz'. unfold rx_fifo_sized in Hsz.
    destruct (rx_fifo (uart m)) as [|b tl] eqn:Harr; [discriminate|].
    simpl. unfold mbind, M_bind.
    rewrite (uart_read_rxfifo_pop m 4 b tl) by (auto; lia).
    destruct (IH (mkMachine (popped (uart m)) (irq_level (popped (uart m)))
                            (trace m ++ [chr_fe_accept_input])))
      as (m' & Hrun & Hlen').
    + unfold rx_fifo_sized. cbn [uart].
      rewrite popped_sized; rewrite Harr; simpl in *; lia.
    + simpl. lia.
    + lia.
    + exists m'. rewrite Hrun. split; [|exact Hlen'].
      unfold mret, M_ret. simpl. f_equal.
      rewrite fifo_popped by (simpl; rewrite Harr; simpl in *; lia).
      pose proof (fifo_head (uart m) b tl ltac:(lia) Harr) as Hh.
      destruct (fifo (uart m)) as [|b' q]; [discriminate|].
      simpl in Hh. injection Hh as ->. reflexivity.
Qed.

End Queue.

(** ** Register decode *)

Section Decode.
Context {hdr : sifive_uart_h}.
Hypothesis Hlabels : labels_distinct.

Lemma uart_read_txfifo m size :
  uart_read (case_label SIFIVE_UART_TXFIFO) size m = Ret 0 m.
Proof. split_labels Hlabels. unfold uart_read. monad_unfold. decode. Qed.

Lemma uart_read_ie m size :
  uart_read (case_label SIFIVE_UART_IE) size m = Ret (to_uint64 (ie (uart m))) m.
Proof. split_labels Hlabels. unfold uart_read. monad_unfold. decode. Qed.

Lemma uart_read_ip m size :
  uart_read (case_label SIFIVE_UART_IP) size m
  = Ret (to_uint64 (if negb (rx_fifo_len (uart m) =? 0)
                    then SIFIVE_UART_IP_RXWM else 0)) m.
Proof. split_labels Hlabels. unfold uart_read. monad_unfold. decode. Qed.

Lemma uart_read_txctrl m size :
  uart_read (case_label SIFIVE_UART_TXCTRL) size m
  = Ret (to_uint64 (txctrl (uart m))) m.
Proof. split_labels Hlabels. unfold uart_read. monad_unfold. decode. Qed.

Lemma uart_read_rxctrl m size :
  uart_read (case_label SIFIVE_UART_RXCTRL) size m
  = Ret (to_uint64 (rxctrl (uart m))) m.
Proof. split_labels Hlabels. unfold uart_read. monad_unfold. decode. Qed.

Lemma uart_read_div m size :
  uart_read (case_label SIFIVE_UART_DIV) size m
  = Ret (to_uint64 (div (uart m))) m.
Proof. split_labels Hlabels. unfold uart_read. monad_unfold. decode. Qed.

Lemma uart_write_ie m v size :
  uart_write (case_label SIFIVE_UART_IE) v size m
  = Ret tt (mkMachine (set_ie (to_uint32 v) (uart m))
                      (irq_level (set_ie (to_uint32 v) (uart m))) (trace m)).
Proof.
  split_labels Hlabels. unfold uart_write. monad_unfold. decode.
  rewrite update_irq_eq. reflexivity.
Qed.

Lemma uart_write_txctrl m v size :
  uart_write (case_label SIFIVE_UART_TXCTRL) v size m
  = Ret tt (mkMachine (set_txctrl (to_uint32 v) (uart m)) (irq m) (trace m)).
Proof. split_labels Hlabels. unfold uart_write. monad_unfold. decode. Qed.

Lemma uart_write_rxctrl m v size :
  uart_write (case_label SIFIVE_UART_RXCTRL) v size m
  = Ret tt (mkMachine (set_rxctrl (to_uint32 v) (uart m)) (irq m) (trace m)).
Proof. split_labels Hlabels. unfold uart_write. monad_unfold. decode. Qed.

Lemma uart_write_div m v size :
  uart_write (case_label SIFIVE_UART_DIV) v size m
  = Ret tt (mkMachine (set_div (to_uint32 v) (uart m)) (irq m) (trace m)).
Proof. split_labels Hlabels. unfold uart_write. monad_unfold. decode. Qed.

(** [uart_write] has no [case] for the two registers that are only read. *)
Lemma uart_write_read_only addr v size m :
  addr ∈ read_only_map ->
  uart_write addr v size m
  = HwError (bad_write "uart_write" (addr mod 2 ^ 32) (v mod 2 ^ 32)).
Proof.
  unfold read_only_map. cbn [fmap list_fmap]. intros Hin.
  split_labels Hlabels.
  assert (Hv : printf_x (to_int (to_uint32 v)) = v mod 2 ^ 32).
  { rewrite printf_x_to_int. unfold to_uint32. apply Z.mod_mod. lia. }
  apply elem_of_cons in Hin as [->|Hin];
    [|apply elem_of_cons in Hin as [->|Hin]; [|inversion Hin]];
    unfold uart_write; monad_unfold; decode;
    rewrite printf_x_to_int, Hv; reflexivity.
Qed.

End Decode.

Section DecodeAny.
Context {hdr : sifive_uart_h}.

(** The [switch] of [uart_write] on its first label needs no side
    condition. *)
Lemma uart_write_txfifo m v size :
  uart_write (case_label SIFIVE_UART_TXFIFO) v size m
  = Ret tt (mkMachine (uart m) (irq m)
                      (trace m ++ [chr_fe_write [to_uchar (to_uint32 v)]])).
Proof. unfold uart_write. monad_unfold. rewrite Z.eqb_refl. reflexivity. Qed.

(** Off the register map both handlers end in [hw_error]. *)
Lemma uart_read_unmapped addr size m :
  addr ∉ register_map ->
  uart_read addr size m = HwError (bad_read "uart_read" (addr mod 2 ^ 32)).
Proof.
  unfold register_map. cbn [fmap list_fmap]. intros Hout.
  repeat (let Hne := fresh "Hne" in apply not_elem_of_cons in Hout as [Hne Hout]).
  unfold uart_read. monad_unfold. decode.
  rewrite printf_x_to_int. reflexivity.
Qed.

Lemma uart_write_unmapped addr v size m :
  addr ∉ register_map ->
  uart_write addr v size m
  = HwError (bad_write "uart_write" (addr mod 2 ^ 32) (v mod 2 ^ 32)).
Proof.
  unfold register_map. cbn [fmap list_fmap]. intros Hout.
  repeat (let Hne := fresh "Hne" in apply not_elem_of_cons in Hout as [Hne Hout]).
  unfold uart_write. monad_unfold. decode.
  rewrite !printf_x_to_int. unfold to_uint32. rewrite Z.mod_mod by lia.
  reflexivity.
Qed.

End DecodeAny.

(** ** What one call can do to the machine *)

Section Cases.
Context {hdr : sifive_uart_h}.

(** [uart_read] leaves the machine as it is, or pops the FIFO, or stops. *)
Lemma uart_read_cases addr size m :
  (exists r, uart_read addr size m = Ret r m)
  \/ (rx_fifo_len (uart m) <> 0 /\ exists r a,
        let s' := set_rx_fifo_len (to_uint32 (rx_fifo_len (uart m) - 1))
                    (set_rx_fifo a (uart m)) in
        length a = length (rx_fifo (uart m)) /\
        uart_read addr size m
        = Ret r (mkMachine s' (irq_level s') (trace m ++ [chr_fe_accept_input])))
  \/ (exists e, uart_read addr size m = HwError e)
  \/ uart_read addr size m = Undefined.
Proof.
  unfold uart_read. monad_unfold.
  destruct (addr =? case_label SIFIVE_UART_RXFIFO).
  - destruct (Z.eqb_spec (rx_fifo_len (uart m)) 0) as [E|E]; simpl; [eauto|].
    unfold load, memmove. monad_unfold.
    destruct ((0 <=? 0) && (0 <? Z.of_nat (length (rx_fifo (uart m)))));
      [|auto].
    destruct (rx_fifo (uart m) !! Z.to_nat 0) as [b|]; [|auto].
    set (n := to_uint64 (to_uint32 (rx_fifo_len (uart m) - 1))).
    destruct ((0 <=? 0) && (0 <=? 1) && (0 <=? n)
              && (0 + n <=? Z.of_nat (length (rx_fifo (uart m))))
              && (1 + n <=? Z.of_nat (length (rx_fifo (uart m))))) eqn:Hb;
      [|auto].
    right; left. split; [exact E|].
    eexists _, _. cbn zeta. split; [|rewrite update_irq_eq; reflexivity].
    apply andb_prop in Hb as [Hb H1]. apply andb_prop in Hb as [Hb H0].
    apply andb_prop in Hb as [_ Hn].
    apply Z.leb_le in H1, H0, Hn.
    rewrite !length_app, !length_take, !length_drop. lia.
  - repeat match goal with
           | |- context [if ?a =? ?b then _ else _] => destruct (a =? b); eauto
           end.
Qed.

(** [uart_write] sends a byte, or sets [ie] and the line, or sets one of
    the three plain registers, or stops. *)
Lemma uart_write_cases addr v size m :
  (exists b, uart_write addr v size m
             = Ret tt (mkMachine (uart m) (irq m) (trace m ++ [chr_fe_write [b]])))
  \/ uart_write addr v size m
     = Ret tt (mkMachine (set_ie (to_uint32 v) (uart m))
                         (irq_level (set_ie (to_uint32 v) (uart m))) (trace m))
  \/ (exists s', uart_write addr v size m = Ret tt (mkMachine s' (irq m) (trace m))
        /\ rx_fifo s' = rx_fifo (uart m)
        /\ rx_fifo_len s' = rx_fifo_len (uart m) /\ ie s' = ie (uart m))
  \/ (exists e, uart_write addr v size m = HwError e).
Proof.
  unfold uart_write. monad_unfold.
  destruct (addr =? case_label SIFIVE_UART_TXFIFO); [eauto|].
  destruct (addr =? case_label SIFIVE_UART_IE).
  { right; left. rewrite update_irq_eq. reflexivity. }
  repeat match goal with
         | |- context [if ?a =? ?b then _ else _] =>
             destruct (a =? b);
             [right; right; left; eexists; split; [reflexivity|auto]|]
         end.
  right; right; right. eauto.
Qed.

(** [uart_rx] drops the byte with a warning, or stores one byte, or was
    handed no byte at all. *)
Lemma uart_rx_cases buf size m :
  (8 <= rx_fifo_len (uart m) /\
     uart_rx buf size m
     = Ret tt (mkMachine (uart m) (irq m)
                         (trace m ++ [printf dropped_char_warning])))
  \/ (rx_fifo_len (uart m) < 8 /\ exists a,
        let s' := set_rx_fifo_len (to_uint32 (rx_fifo_len (uart m) + 1))
                    (set_rx_fifo a (uart m)) in
        length a = length (rx_fifo (uart m)) /\
        uart_rx buf size m = Ret tt (mkMachine s' (irq_level s') (trace m)))
  \/ uart_rx buf size m = Undefined.
Proof.
  unfold uart_rx, sizeof_rx_fifo. monad_unfold.
  destruct (Z.leb_spec 8 (rx_fifo_len (uart m))) as [Hfull|Hroom]; [auto|].
  unfold load, store. monad_unfold.
  destruct ((0 <=? 0) && (0 <? Z.of_nat (length buf))); [|auto].
  destruct (buf !! Z.to_nat 0) as [b|]; [|auto].
  destruct ((0 <=? rx_fifo_len (uart m))
            && (rx_fifo_len (uart m) <? Z.of_nat (length (rx_fifo (uart m)))));
    [|auto].
  right; left. split; [exact Hroom|]. eexists. cbn zeta.
  split; [|rewrite update_irq_eq; reflexivity].
  apply length_insert.
Qed.

(** On a machine whose array has its declared size and whose length is
    in range, no handler reaches outside an array. *)
Lemma uart_read_defined addr size m :
  rx_fifo_sized m -> fifo_len_ok m -> uart_read addr size m <> Undefined.
Proof.
  unfold fifo_len_ok. intros Hsz Hlen.
  destruct (Z.eqb_spec addr (case_label SIFIVE_UART_RXFIFO)) as [->|Hne].
  - destruct (Z.eq_dec (rx_fifo_len (uart m)) 0) as [E|E].
    + rewrite uart_read_rxfifo_empty by exact E. discriminate.
    + destruct (rx_fifo (uart m)) as [|b tl] eqn:Harr.
      * unfold rx_fifo_sized in Hsz. rewrite Harr in Hsz. discriminate.
      * rewrite (uart_read_rxfifo_pop m size b tl) by (auto; lia).
        discriminate.
  - unfold uart_read. monad_unfold.
    destruct (Z.eqb_spec addr (case_label SIFIVE_UART_RXFIFO)); [contradiction|].
    repeat match goal with
           | |- context [if ?a =? ?b then _ else _] =>
               destruct (a =? b); [discriminate|]
           end.
    discriminate.
Qed.

Lemma uart_write_defined addr v size m : uart_write addr v size m <> Undefined.
Proof.
  destruct (uart_write_cases addr v size m)
    as [[b ->]|[->|[(s' & -> & _)|[e ->]]]]; discriminate.
Qed.

Lemma uart_rx_defined b rest size m :
  rx_fifo_sized m -> fifo_len_ok m -> uart_rx (b :: rest) size m <> Undefined.
Proof.
  unfold fifo_len_ok. intros Hsz Hlen.
  destruct (Z_lt_le_dec (rx_fifo_len (uart m)) 8).
  - rewrite uart_rx_room by (auto; lia). discriminate.
  - rewrite uart_rx_full by lia. discriminate.
Qed.

End Cases.

(** ** Invariants of the machine *)

Section Invariants.
Context {hdr : sifive_uart_h}.

(** What [step] can do to the device and the line, whatever the operation. *)
Lemma step_cases o m m' :
  step o m = Ret tt m' ->
  (uart m' = uart m /\ irq m' = irq m)
  \/ (exists s', uart m' = s' /\ irq m' = irq m
        /\ rx_fifo_len s' = rx_fifo_len (uart m) /\ ie s' = ie (uart m)
        /\ length (rx_fifo s') = length (rx_fifo (uart m)))
  \/ (irq m' = irq_level (uart m')
      /\ length (rx_fifo (uart m')) = length (rx_fifo (uart m))
      /\ ((rx_fifo_len (uart m) <> 0
           /\ rx_fifo_len (uart m') = to_uint32 (rx_fifo_len (uart m) - 1))
          \/ (rx_fifo_len (uart m) < 8
              /\ rx_fifo_len (uart m') = to_uint32 (rx_fifo_len (uart m) + 1))
          \/ rx_fifo_len (uart m') = rx_fifo_len (uart m))).
Proof.
  destruct o as [addr size|addr v size|buf size|]; simpl; monad_unfold.
  - destruct (uart_read_cases addr size m)
      as [[r ->]|[(Hne & r & a & Ha & ->)|[[e ->]| -> ]]];
      intros [= <-]; simpl.
    + auto.
    + right; right. auto 8.
  - destruct (uart_write_cases addr v size m)
      as [[b ->]|[->|[(s' & -> & Ha & Hl & Hi)|[e ->]]]];
      intros [= <-]; simpl.
    + auto.
    + right; right. auto 8.
    + right; left. exists s'. rewrite Ha. auto 8.
  - destruct (uart_rx_cases buf size m)
      as [[Hfull ->]|[(Hroom & a & Ha & ->)| -> ]];
      intros [= <-]; simpl.
    + auto.
    + right; right. auto 8.
  - unfold uart_can_rx. monad_unfold. intros [= <-]. auto.
Qed.

Lemma step_fifo_len_ok o m m' :
  fifo_len_ok m -> step o m = Ret tt m' -> fifo_len_ok m'.
Proof.
  unfold fifo_len_ok. intros Hlen Hstep.
  destruct (step_cases o m m' Hstep)
    as [[-> _]|[(s' & <- & _ & Hl & _)|(_ & _ & [[Hne ->]|[[Hroom ->]| ->]])]];
    try lia; rewrite to_uint32_small; lia.
Qed.

Lemma step_sized o m m' :
  rx_fifo_sized m -> step o m = Ret tt m' -> rx_fifo_sized m'.
Proof.
  unfold rx_fifo_sized. intros Hsz Hstep.
  destruct (step_cases o m m' Hstep)
    as [[-> _]|[(s' & <- & _ & _ & _ & Ha)|(_ & Ha & _)]]; congruence.
Qed.

Lemma step_irq_ok o m m' :
  rxwm_single_bit -> fifo_len_ok m -> irq_ok m ->
  step o m = Ret tt m' -> irq_ok m'.
Proof.
  unfold irq_ok. intros Hbit Hlen Hirq Hstep.
  pose proof (step_fifo_len_ok o m m' Hlen Hstep) as Hlen'.
  unfold fifo_len_ok in Hlen, Hlen'.
  destruct (step_cases o m m' Hstep)
    as [[-> ->]|[(s' & <- & -> & Hl & Hi & _)|(-> & _)]].
  - exact Hirq.
  - rewrite Hirq. unfold irq_cond. rewrite Hl, Hi. reflexivity.
  - apply irq_level_cond; [exact Hbit|lia].
Qed.

(** The bus and the backend may issue any operations in any order: the
    invariants hold for as long as the emulator runs. *)
Lemma run_invariants os : forall m m',
  rxwm_single_bit -> rx_fifo_sized m -> fifo_len_ok m -> irq_ok m ->
  run os m = Ret tt m' ->
  rx_fifo_sized m' /\ fifo_len_ok m' /\ irq_ok m'.
Proof.
  induction os as [|o os IH]; intros m m' Hbit Hsz Hlen Hirq; simpl.
  - unfold mret, M_ret. intros [= <-]. auto.
  - unfold mbind, M_bind.
    destruct (step o m) as [[] m1| |] eqn:Hstep; try discriminate.
    intros Hrun. apply (IH m1 m'); eauto using step_sized, step_fifo_len_ok, step_irq_ok.
Qed.

Lemma run_fifo_len_ok os : forall m m',
  fifo_len_ok m -> run os m = Ret tt m' -> fifo_len_ok m'.
Proof.
  induction os as [|o os IH]; intros m m' Hlen; simpl.
  - unfold mret, M_ret. intros [= <-]. exact Hlen.
  - unfold mbind, M_bind.
    destruct (step o m) as [[] m1| |] eqn:Hstep; try discriminate.
    apply IH. eapply step_fifo_len_ok; eassumption.
Qed.

Lemma create_sized l : rx_fifo_sized (sifive_uart_create l).
Proof. reflexivity. Qed.

Lemma create_fifo_len_ok l : fifo_len_ok (sifive_uart_create l).
Proof. unfold fifo_len_ok. simpl. lia. Qed.

Lemma create_irq_ok : irq_ok (sifive_uart_create false).
Proof.
  unfold irq_ok, irq_cond. simpl. rewrite Z.bits_0. reflexivity.
Qed.

End Invariants.

(** ** The properties of the design document *)

(** C1 (FIFO ordering law).  Starting from an empty receive FIFO, after
    the backend delivers at most 8 bytes, as many reads of RXFIFO return
    exactly those bytes, in the order of delivery, each as a number below
    256 (the byte zero-extended), and the FIFO is empty again. *)
Theorem fifo_ordering {hdr : sifive_uart_h} (m : Machine) (bs : list byte) :
  rx_fifo_sized m -> rx_fifo_len (uart m) = 0 -> (length bs <= 8)%nat ->
  exists m',
    (deliver bs;; read_rxfifo (length bs)) m = Ret (byte_val <$> bs) m'
    /\ rx_fifo_len (uart m') = 0
    /\ Forall (fun r => 0 <= r < 256) (byte_val <$> bs).
Proof.
  intros Hsz Hlen Hn.
  destruct (deliver_queues bs m Hsz ltac:(lia) ltac:(lia))
    as (m1 & Hdel & Hsz1 & Hlen1 & Hq).
  destruct (read_rxfifo_drains (length bs) m1 Hsz1 ltac:(lia) Hn)
    as (m' & Hread & Hlen').
  exists m'. unfold mbind, M_bind. rewrite Hdel, Hread, Hq.
  unfold fifo at 1. rewrite Hlen. simpl.
  repeat split; auto.
  apply Forall_fmap, Forall_forall. intros b _. apply byte_val_range.
Qed.

Lemma fifo_ordering_witness :
  exists m',
    (deliver (hdr := spec_register_map) [x41; x42; x43];;
     read_rxfifo (hdr := spec_register_map) 3) fresh_machine
    = Ret [65; 66; 67] m'
    /\ rx_fifo_len (uart m') = 0
    /\ Forall (fun r => 0 <= r < 256) [65; 66; 67].
Proof.
  apply (fifo_ordering (hdr := spec_register_map) fresh_machine [x41; x42; x43]).
  - reflexivity.
  - reflexivity.
  - simpl. lia.
Defined.

(** C2 (the interrupt line follows the state).  With [IE_RXWM] a single
    bit: the line of a fresh controller is as the rule says (lowered);
    every operation that returns keeps the line equal to "the RXWM bit of
    [ie] is set and the FIFO is not empty", hence so does every sequence
    of operations from creation on; and a write of IE sets the line by the
    written value and the bytes already waiting, with no new byte and no
    read. *)
Theorem irq_line_follows_state {hdr : sifive_uart_h} :
  labels_distinct -> rxwm_single_bit ->
  irq_ok fresh_machine
  /\ (forall o m m',
        fifo_len_ok m -> irq_ok m -> step o m = Ret tt m' -> irq_ok m')
  /\ (forall os m', run os fresh_machine = Ret tt m' -> irq_ok m')
  /\ (forall m v size,
        fifo_len_ok m ->
        exists m',
          uart_write (case_label SIFIVE_UART_IE) v size m = Ret tt m'
          /\ uart m' = set_ie (to_uint32 v) (uart m)
          /\ trace m' = trace m
          /\ irq m' = Z.testbit v rxwm_bit && (0 <? rx_fifo_len (uart m))).
Proof.
  intros Hlabels Hbit. split; [apply create_irq_ok|].
  split; [intros o m m'; apply step_irq_ok; exact Hbit|].
  split.
  - intros os m' Hrun.
    apply (run_invariants os fresh_machine m' Hbit (create_sized false)
             (create_fifo_len_ok false) create_irq_ok Hrun).
  - intros m v size Hlen. eexists. rewrite uart_write_ie by exact Hlabels.
    split; [reflexivity|]. simpl. repeat split.
    unfold fifo_len_ok in Hlen.
    rewrite irq_level_cond by (simpl; auto; lia).
    unfold irq_cond. simpl. f_equal.
    unfold to_uint32. apply Z.mod_pow2_bits_low.
    pose proof rxwm_bit_range. lia.
Qed.

Lemma irq_line_follows_state_witness :
  irq_ok (hdr := spec_register_map) fresh_machine
  /\ (exists m',
        uart_write (hdr := spec_register_map) 0x08 2 4 full_machine = Ret tt m'
        /\ irq m' = true).
Proof.
  assert (Hd : labels_distinct (hdr := spec_register_map)).
  { unfold labels_distinct. apply (bool_decide_unpack _). vm_compute. exact I. }
  assert (Hb : rxwm_single_bit (hdr := spec_register_map)) by reflexivity.
  destruct (irq_line_follows_state (hdr := spec_register_map) Hd Hb)
    as (Hinit & _ & _ & Hie).
  split; [exact Hinit|].
  destruct (Hie full_machine 2 4) as (m' & Hw & _ & _ & Hirq).
  - unfold fifo_len_ok. simpl. lia.
  - exists m'. split; [exact Hw|exact Hirq].
Defined.

(** C3 (receive overrun).  With 8 bytes in the FIFO, a delivery returns
    normally, adds the warning to the output and changes nothing else:
    the array, the length, the registers and the line are as before. *)
Theorem rx_overrun_drops {hdr : sifive_uart_h} (m : Machine) buf size :
  rx_fifo_len (uart m) = 8 ->
  uart_rx buf size m
  = Ret tt (mkMachine (uart m) (irq m)
                      (trace m ++ [printf dropped_char_warning])).
Proof. intros Hlen. apply uart_rx_full. lia. Qed.

Lemma rx_overrun_drops_witness :
  uart_rx (hdr := spec_register_map) [x49] 1 full_machine
  = Ret tt (mkMachine (uart full_machine) false [printf dropped_char_warning]).
Proof.
  apply (rx_overrun_drops (hdr := spec_register_map) full_machine [x49] 1).
  reflexivity.
Defined.

(** C4 (RXFIFO read, FIFO empty).  With the FIFO empty, a read of RXFIFO
    returns 0x80000000, whose bit 31 is set, and the machine afterwards
    is the machine before: array, length, registers, line and output. *)
Theorem rxfifo_empty_read {hdr : sifive_uart_h} (m : Machine) size :
  rx_fifo_len (uart m) = 0 ->
  uart_read (case_label SIFIVE_UART_RXFIFO) size m = Ret 0x80000000 m
  /\ Z.testbit 0x80000000 31 = true.
Proof.
  intros Hlen. split; [apply uart_read_rxfifo_empty; exact Hlen|reflexivity].
Qed.

Lemma rxfifo_empty_read_witness :
  uart_read (hdr := spec_register_map) 0x00 4 fresh_machine
  = Ret 0x80000000 fresh_machine
  /\ Z.testbit 0x80000000 31 = true.
Proof.
  apply (rxfifo_empty_read (hdr := spec_register_map) fresh_machine 4).
  reflexivity.
Defined.

(** C5 (TXCTRL, RXCTRL, DIV round trip).  For a 32-bit [v], a write of
    [v] to one of the three registers followed by a read of the same
    register returns [v]; of the whole machine only that register has
    changed. *)
Theorem ctrl_registers_round_trip {hdr : sifive_uart_h} (m : Machine)
    (v size size' : Z) :
  labels_distinct -> 0 <= v < 2 ^ 32 ->
  (uart_write (case_label SIFIVE_UART_TXCTRL) v size;;
   uart_read (case_label SIFIVE_UART_TXCTRL) size') m
  = Ret v (mkMachine (set_txctrl v (uart m)) (irq m) (trace m))
  /\ (uart_write (case_label SIFIVE_UART_RXCTRL) v size;;
      uart_read (case_label SIFIVE_UART_RXCTRL) size') m
     = Ret v (mkMachine (set_rxctrl v (uart m)) (irq m) (trace m))
  /\ (uart_write (case_label SIFIVE_UART_DIV) v size;;
      uart_read (case_label SIFIVE_UART_DIV) size') m
     = Ret v (mkMachine (set_div v (uart m)) (irq m) (trace m)).
Proof.
  intros Hlabels Hv. unfold mbind, M_bind.
  rewrite uart_write_txctrl, uart_write_rxctrl, uart_write_div by exact Hlabels.
  rewrite uart_read_txctrl, uart_read_rxctrl, uart_read_div by exact Hlabels.
  simpl. rewrite to_uint32_small, to_uint64_small by lia. auto.
Qed.

Lemma ctrl_registers_round_trip_witness :
  (uart_write (hdr := spec_register_map) 0x10 0xDEADBEEF 4;;
   uart_read (hdr := spec_register_map) 0x10 4) fresh_machine
  = Ret 0xDEADBEEF
        (mkMachine (set_txctrl 0xDEADBEEF (uart fresh_machine)) false []).
Proof.
  apply (ctrl_registers_round_trip (hdr := spec_register_map)
           fresh_machine 0xDEADBEEF 4 4).
  - unfold labels_distinct. apply (bool_decide_unpack _). vm_compute. exact I.
  - lia.
Defined.

(** C6 (TXFIFO write).  A write of any value to TXFIFO hands one byte to
    the backend, the low byte of the value, and changes nothing of the
    device nor of the line. *)
Theorem txfifo_write_forwards_low_byte {hdr : sifive_uart_h} (m : Machine)
    (v size : Z) :
  exists ch,
    uart_write (case_label SIFIVE_UART_TXFIFO) v size m
    = Ret tt (mkMachine (uart m) (irq m) (trace m ++ [chr_fe_write [ch]]))
    /\ byte_val ch = Z.land v 0xFF.
Proof.
  eexists. split; [apply uart_write_txfifo|].
  rewrite byte_val_to_uchar. unfold to_uint32.
  change 0xFF with (Z.ones 8). rewrite Z.land_ones by lia.
  change (2 ^ 8) with 256.
  apply Z.mod_mod_divide. exists (2 ^ 24). reflexivity.
Qed.

(** C7, as stated, fails: RXFIFO (offset 0x00 in the design document's
    map) is on the register map, and a write to it ends in [hw_error].
    The same holds whatever offsets the header gives the registers. *)
Lemma write_rxfifo_is_fatal :
  (0x00 ∈ register_map (hdr := spec_register_map)
   /\ uart_write (hdr := spec_register_map) 0x00 0x41 4 fresh_machine
      = HwError (bad_write "uart_write" 0x00 0x41)
   /\ ~ mapped_access_never_fatal (hdr := spec_register_map))
  /\ (forall hdr : sifive_uart_h,
        labels_distinct -> ~ mapped_access_never_fatal).
Proof.
  assert (Hin : 0x00 ∈ register_map (hdr := spec_register_map)).
  { apply (bool_decide_unpack _). vm_compute. exact I. }
  split.
  - split; [exact Hin|]. split; [reflexivity|].
    intros Hclaim.
    destruct (Hclaim 0x00 Hin 0x41 4 fresh_machine) as [_ Hw].
    vm_compute in Hw. discriminate.
  - intros hdr Hlabels Hclaim.
    destruct (Hclaim (case_label SIFIVE_UART_RXFIFO) ltac:(left) 0 4 fresh_machine)
      as [_ Hw].
    rewrite uart_write_read_only in Hw by (exact Hlabels || left).
    discriminate.
Qed.

(** C7, amended (unknown register address).  Off the register map a read
    and a write both end in [hw_error], and the message carries the
    address as [%x] prints its [int] cast, that is the address itself
    when it is below 2^32.  On the map every read returns, and so does
    every write to TXFIFO, IE, TXCTRL, RXCTRL and DIV; a write to RXFIFO
    or IP, which are only read, ends in [hw_error] like a write off the
    map. *)
Theorem unmapped_access_is_fatal {hdr : sifive_uart_h} :
  labels_distinct ->
  (forall addr size m,
     addr ∉ register_map ->
     uart_read addr size m = HwError (bad_read "uart_read" (addr mod 2 ^ 32)))
  /\ (forall addr v size m,
        addr ∉ register_map ->
        uart_write addr v size m
        = HwError (bad_write "uart_write" (addr mod 2 ^ 32) (v mod 2 ^ 32)))
  /\ (forall addr size m,
        addr ∈ register_map -> rx_fifo_sized m -> fifo_len_ok m ->
        exists r m', uart_read addr size m = Ret r m')
  /\ (forall addr v size m,
        addr ∈ writable_map ->
        exists m', uart_write addr v size m = Ret tt m')
  /\ (forall addr v size m,
        addr ∈ read_only_map ->
        uart_write addr v size m
        = HwError (bad_write "uart_write" (addr mod 2 ^ 32) (v mod 2 ^ 32))).
Proof.
  intros Hlabels.
  split; [intros; apply uart_read_unmapped; assumption|].
  split; [intros; apply uart_write_unmapped; assumption|].
  split; [|split].
  - intros addr size m Hin Hsz Hlen.
    unfold register_map in Hin. cbn [fmap list_fmap] in Hin.
    repeat (apply elem_of_cons in Hin as [->|Hin]).
    + unfold fifo_len_ok in Hlen.
      destruct (Z.eq_dec (rx_fifo_len (uart m)) 0) as [E|E].
      * eexists _, _. apply uart_read_rxfifo_empty, E.
      * destruct (rx_fifo (uart m)) as [|b tl] eqn:Harr.
        { unfold rx_fifo_sized in Hsz. rewrite Harr in Hsz. discriminate. }
        eexists _, _. apply (uart_read_rxfifo_pop m size b tl); auto; lia.
    + eexists _, _. apply uart_read_txfifo, Hlabels.
    + eexists _, _. apply uart_read_ie, Hlabels.
    + eexists _, _. apply uart_read_ip, Hlabels.
    + eexists _, _. apply uart_read_txctrl, Hlabels.
    + eexists _, _. apply uart_read_rxctrl, Hlabels.
    + eexists _, _. apply uart_read_div, Hlabels.
    + inversion Hin.
  - intros addr v size m Hin.
    unfold writable_map in Hin. cbn [fmap list_fmap] in Hin.
    repeat (apply elem_of_cons in Hin as [->|Hin]; [eexists|]).
    + apply uart_write_txfifo.
    + apply uart_write_ie, Hlabels.
    + apply uart_write_txctrl, Hlabels.
    + apply uart_write_rxctrl, Hlabels.
    + apply uart_write_div, Hlabels.
    + inversion Hin.
  - intros addr v size m Hin. apply uart_write_read_only; assumption.
Qed.

Lemma unmapped_access_is_fatal_witness :
  uart_read (hdr := spec_register_map) 0x1C 4 fresh_machine
  = HwError (bad_read "uart_read" 0x1C)
  /\ uart_write (hdr := spec_register_map) 0x1C 0x41 4 fresh_machine
     = HwError (bad_write "uart_write" 0x1C 0x41).
Proof.
  assert (Hd : labels_distinct (hdr := spec_register_map)).
  { unfold labels_distinct. apply (bool_decide_unpack _). vm_compute. exact I. }
  assert (Hout : 0x1C ∉ register_map (hdr := spec_register_map)).
  { apply (bool_decide_unpack _). vm_compute. exact I. }
  destruct (unmapped_access_is_fatal (hdr := spec_register_map) Hd)
    as (Hr & Hw & _).
  split.
  - apply (Hr 0x1C 4 fresh_machine Hout).
  - apply (Hw 0x1C 0x41 4 fresh_machine Hout).
Defined.

(** C8 (the length stays in range).  [0 <= rx_fifo_len <= 8] holds of the
    zeroed state that [sifive_uart_create] builds, every operation (a
    register read, a register write, a delivery, a flow-control query)
    that returns keeps it, and so it holds after every sequence of
    operations from creation on. *)
Theorem rx_fifo_len_bounded {hdr : sifive_uart_h} :
  (forall l, fifo_len_ok (sifive_uart_create l))
  /\ (forall o m m', fifo_len_ok m -> step o m = Ret tt m' -> fifo_len_ok m')
  /\ (forall os l m', run os (sifive_uart_create l) = Ret tt m' -> fifo_len_ok m').
Proof.
  split; [apply create_fifo_len_ok|].
  split; [apply step_fifo_len_ok|].
  intros os l m'. apply run_fifo_len_ok, create_fifo_len_ok.
Qed.

Lemma rx_fifo_len_bounded_witness :
  fifo_len_ok fresh_machine
  /\ fifo_len_ok (mkMachine (pushed x49 (uart fresh_machine)) false []).
Proof.
  destruct (rx_fifo_len_bounded (hdr := spec_register_map)) as (Hinit & Hstep & _).
  split; [apply Hinit|].
  apply (Hstep (chr_read [x49] 1) fresh_machine).
  - unfold fifo_len_ok. simpl. lia.
  - reflexivity.
Defined.

(** C9 (flow-control query).  [uart_can_rx] returns 1 when fewer than 8
    bytes are waiting and 0 otherwise, and the machine afterwards is the
    machine before. *)
Theorem uart_can_rx_iff_room (m : Machine) :
  exists r,
    uart_can_rx m = Ret r m
    /\ (r = 0 \/ r = 1)
    /\ (r <> 0 <-> rx_fifo_len (uart m) < 8).
Proof.
  unfold uart_can_rx, sizeof_rx_fifo. monad_unfold.
  destruct (Z.ltb_spec (rx_fifo_len (uart m)) 8) as [Hlt|Hge];
    eexists; (split; [reflexivity|]); split; auto; split; intros; lia.
Qed.

(** C10 (one byte per delivery).  With room in the FIFO, a delivery of a
    buffer that holds at least one byte queues the first byte of the
    buffer behind the bytes already waiting and raises the length by one;
    registers and output are untouched, and neither the bytes after the
    first nor the [size] argument make a difference. *)
Theorem uart_rx_takes_first_byte {hdr : sifive_uart_h} (m : Machine)
    (b : byte) (rest : list byte) (size : Z) :
  rx_fifo_sized m -> 0 <= rx_fifo_len (uart m) < 8 ->
  exists m',
    uart_rx (b :: rest) size m = Ret tt m'
    /\ fifo (uart m') = fifo (uart m) ++ [b]
    /\ rx_fifo_len (uart m') = rx_fifo_len (uart m) + 1
    /\ (ie (uart m'), txctrl (uart m'), rxctrl (uart m'), div (uart m'))
       = (ie (uart m), txctrl (uart m), rxctrl (uart m), div (uart m))
    /\ trace m' = trace m
    /\ uart_rx (b :: rest) size m = uart_rx [b] 1 m.
Proof.
  intros Hsz Hlen. eexists.
  rewrite !uart_rx_room by assumption.
  split; [reflexivity|]. simpl.
  unfold rx_fifo_sized in Hsz.
  rewrite fifo_pushed by lia. auto.
Qed.

Lemma uart_rx_takes_first_byte_witness :
  exists m',
    uart_rx (hdr := spec_register_map) [x41; x42; x43] 3 fresh_machine = Ret tt m'
    /\ fifo (uart m') = fifo (uart fresh_machine) ++ [x41]
    /\ rx_fifo_len (uart m') = rx_fifo_len (uart fresh_machine) + 1
    /\ (ie (uart m'), txctrl (uart m'), rxctrl (uart m'), div (uart m'))
       = (ie (uart fresh_machine), txctrl (uart fresh_machine),
          rxctrl (uart fresh_machine), div (uart fresh_machine))
    /\ trace m' = trace fresh_machine
    /\ uart_rx (hdr := spec_register_map) [x41; x42; x43] 3 fresh_machine
       = uart_rx (hdr := spec_register_map) [x41] 1 fresh_machine.
Proof.
  apply (uart_rx_takes_first_byte (hdr := spec_register_map)
           fresh_machine x41 [x42; x43] 3).
  - reflexivity.
  - simpl. lia.
Defined.

(** ** More of the handlers: frames, the queue, runs *)

Section Frames.
Context {hdr : sifive_uart_h}.

Lemma fifo_length s :
  0 <= rx_fifo_len s <= Z.of_nat (length (rx_fifo s)) ->
  Z.of_nat (length (fifo s)) = rx_fifo_len s.
Proof.
  intros H. unfold fifo. rewrite length_take_le by lia. lia.
Qed.

(** Every [case] of [uart_read] but the first returns without a store. *)
Lemma uart_read_other_unchanged addr size m r m' :
  addr <> case_label SIFIVE_UART_RXFIFO ->
  uart_read addr size m = Ret r m' -> m' = m.
Proof.
  intros Hne. unfold uart_read. monad_unfold.
  destruct (Z.eqb_spec addr (case_label SIFIVE_UART_RXFIFO)); [contradiction|].
  repeat match goal with
         | |- context [if ?a =? ?b then _ else _] =>
             destruct (a =? b); [intros [= _ <-]; reflexivity|]
         end.
  discriminate.
Qed.

(** A read of RXFIFO on a machine in good shape: the sentinel, or the
    oldest byte. *)
Lemma uart_read_rxfifo_wf m size :
  rx_fifo_sized m -> fifo_len_ok m ->
  (rx_fifo_len (uart m) = 0
   /\ uart_read (case_label SIFIVE_UART_RXFIFO) size m = Ret rxfifo_empty_flag m)
  \/ (exists b q,
        fifo (uart m) = b :: q
        /\ 0 < rx_fifo_len (uart m)
        /\ fifo (popped (uart m)) = q
        /\ uart_read (case_label SIFIVE_UART_RXFIFO) size m
           = Ret (byte_val b)
               (mkMachine (popped (uart m)) (irq_level (popped (uart m)))
                          (trace m ++ [chr_fe_accept_input]))).
Proof.
  unfold fifo_len_ok. intros Hsz Hlen.
  destruct (Z.eq_dec (rx_fifo_len (uart m)) 0) as [E|E].
  - left. split; [exact E|]. apply uart_read_rxfifo_empty, E.
  - right. pose proof Hsz as Hsz'. unfold rx_fifo_sized in Hsz'.
    destruct (rx_fifo (uart m)) as [|b tl] eqn:Harr; [discriminate|].
    pose proof (fifo_head (uart m) b tl ltac:(lia) Harr) as Hh.
    pose proof (fifo_popped (uart m)) as Hp.
    rewrite Harr in Hp. specialize (Hp ltac:(simpl in *; lia)).
    destruct (fifo (uart m)) as [|b' q] eqn:Hq; [discriminate|].
    simpl in Hh. injection Hh as ->.
    exists b, q. split; [reflexivity|]. split; [lia|].
    split; [rewrite Hp; reflexivity|].
    apply (uart_read_rxfifo_pop m size b tl); auto; lia.
Qed.

(** One operation on the machine is one step of the queue. *)
Lemma step_queue o m m' :
  rx_fifo_sized m -> fifo_len_ok m ->
  step o m = Ret tt m' ->
  fifo (uart m') = queue_step o (fifo (uart m)).
Proof.
  intros Hsz Hlen.
  pose proof (fifo_length (uart m)) as Hfl.
  unfold rx_fifo_sized in Hsz. unfold fifo_len_ok in Hlen.
  rewrite Hsz in Hfl. specialize (Hfl ltac:(lia)).
  destruct o as [addr size|addr v size|buf size|]; simpl; monad_unfold.
  - destruct (Z.eqb_spec addr (case_label SIFIVE_UART_RXFIFO)) as [->|Hne].
    + destruct (uart_read_rxfifo_wf m size Hsz Hlen)
        as [[E ->]|(b & q & Hq & _ & Hp & ->)]; intros [= <-]; simpl.
      * unfold fifo. rewrite E. reflexivity.
      * rewrite Hp, Hq. reflexivity.
    + destruct (uart_read addr size m) as [r m1| |] eqn:Hr; try discriminate.
      intros [= <-]. apply uart_read_other_unchanged in Hr; [|exact Hne].
      subst. reflexivity.
  - destruct (uart_write_cases addr v size m)
      as [[b ->]|[->|[(s' & -> & Ha & Hl & _)|[e ->]]]];
      intros [= <-]; simpl; try reflexivity.
    unfold fifo. rewrite Ha, Hl. reflexivity.
  - destruct buf as [|b rest].
    + unfold uart_rx, sizeof_rx_fifo, load. monad_unfold.
      destruct (8 <=? rx_fifo_len (uart m)); simpl; [|discriminate].
      intros [= <-]. reflexivity.
    + rewrite Hfl.
      destruct (Z.ltb_spec (rx_fifo_len (uart m)) 8).
      * rewrite uart_rx_room by (auto; lia). intros [= <-]. simpl.
        apply fifo_pushed. lia.
      * rewrite uart_rx_full by lia. intros [= <-]. reflexivity.
  - unfold uart_can_rx. monad_unfold. intros [= <-]. reflexivity.
Qed.

Lemma run_queue os : forall m m',
  rx_fifo_sized m -> fifo_len_ok m ->
  run os m = Ret tt m' ->
  fifo (uart m') = queue_run os (fifo (uart m)).
Proof.
  induction os as [|o os IH]; intros m m' Hsz Hlen; simpl.
  - unfold mret, M_ret. intros [= <-]. reflexivity.
  - unfold mbind, M_bind.
    destruct (step o m) as [[] m1| |] eqn:Hstep; try discriminate.
    intros Hrun. unfold queue_run. simpl.
    rewrite <- (step_queue o m m1 Hsz Hlen Hstep).
    apply IH; eauto using step_sized, step_fifo_len_ok.
Qed.

(** No operation with a byte to deliver reaches outside an array. *)
Lemma step_defined o m :
  has_byte o -> rx_fifo_sized m -> fifo_len_ok m -> step o m <> Undefined.
Proof.
  intros Hb Hsz Hlen.
  destruct o as [addr size|addr v size|[|b rest] size|]; simpl in *; monad_unfold.
  - pose proof (uart_read_defined addr size m Hsz Hlen).
    destruct (uart_read addr size m); congruence.
  - apply uart_write_defined.
  - contradiction.
  - apply uart_rx_defined; assumption.
  - discriminate.
Qed.

Lemma run_defined os : forall m,
  Forall has_byte os -> rx_fifo_sized m -> fifo_len_ok m ->
  run os m <> Undefined.
Proof.
  induction os as [|o os IH]; intros m Hos Hsz Hlen; simpl.
  - discriminate.
  - apply Forall_cons in Hos as [Ho Hos]. unfold mbind, M_bind.
    pose proof (step_defined o m Ho Hsz Hlen) as Hd.
    destruct (step o m) as [[] m1| |] eqn:Hstep; [|discriminate|contradiction].
    apply IH; eauto using step_sized, step_fifo_len_ok.
Qed.

(** The line is what [update_irq] would make it, in the code's own terms:
    this needs nothing of the header. *)
Lemma step_irq_level o m m' :
  irq m = irq_level (uart m) -> step o m = Ret tt m' ->
  irq m' = irq_level (uart m').
Proof.
  intros Hirq Hstep.
  destruct (step_cases o m m' Hstep)
    as [[-> ->]|[(s' & <- & -> & Hl & Hi & _)|(-> & _)]]; auto.
  rewrite Hirq. unfold irq_level. rewrite Hl, Hi. reflexivity.
Qed.

Lemma run_irq_level os : forall m m',
  irq m = irq_level (uart m) -> run os m = Ret tt m' ->
  irq m' = irq_level (uart m').
Proof.
  induction os as [|o os IH]; intros m m' Hirq; simpl.
  - unfold mret, M_ret. intros [= <-]. exact Hirq.
  - unfold mbind, M_bind.
    destruct (step o m) as [[] m1| |] eqn:Hstep; try discriminate.
    apply IH. eapply step_irq_level; eassumption.
Qed.

End Frames.

Section Legal.
Context {hdr : sifive_uart_h}.
Hypothesis Hlabels : labels_distinct.

Lemma uart_read_mapped_returns addr size m :
  addr ∈ register_map -> rx_fifo_sized m -> fifo_len_ok m ->
  exists r m', uart_read addr size m = Ret r m'.
Proof.
  intros Hin Hsz Hlen.
  unfold register_map in Hin. cbn [fmap list_fmap] in Hin.
  repeat (apply elem_of_cons in Hin as [->|Hin]).
  - destruct (uart_read_rxfifo_wf m size Hsz Hlen)
      as [[_ ->]|(b & q & _ & _ & _ & ->)]; eauto.
  - eexists _, _. apply uart_read_txfifo, Hlabels.
  - eexists _, _. apply uart_read_ie, Hlabels.
  - eexists _, _. apply uart_read_ip, Hlabels.
  - eexists _, _. apply uart_read_txctrl, Hlabels.
  - eexists _, _. apply uart_read_rxctrl, Hlabels.
  - eexists _, _. apply uart_read_div, Hlabels.
  - inversion Hin.
Qed.

Lemma uart_write_writable_returns addr v size m :
  addr ∈ writable_map -> exists m', uart_write addr v size m = Ret tt m'.
Proof.
  intros Hin. unfold writable_map in Hin. cbn [fmap list_fmap] in Hin.
  repeat (apply elem_of_cons in Hin as [->|Hin]; [eexists|]).
  - apply uart_write_txfifo.
  - apply uart_write_ie, Hlabels.
  - apply uart_write_txctrl, Hlabels.
  - apply uart_write_rxctrl, Hlabels.
  - apply uart_write_div, Hlabels.
  - inversion Hin.
Qed.

Lemma step_legal_returns o m :
  legal o -> rx_fifo_sized m -> fifo_len_ok m ->
  exists m', step o m = Ret tt m'.
Proof.
  intros Hl Hsz Hlen.
  destruct o as [addr size|addr v size|buf size|]; simpl in *; monad_unfold.
  - destruct (uart_read_mapped_returns addr size m Hl Hsz Hlen) as (r & m' & ->).
    eauto.
  - apply uart_write_writable_returns, Hl.
  - destruct buf as [|b rest]; [contradiction|].
    unfold fifo_len_ok in Hlen.
    destruct (Z_lt_le_dec (rx_fifo_len (uart m)) 8).
    + rewrite uart_rx_room by (auto; lia). eauto.
    + rewrite uart_rx_full by lia. eauto.
  - unfold uart_can_rx. monad_unfold. eauto.
Qed.

Lemma run_legal_returns os : forall m,
  Forall legal os -> rx_fifo_sized m -> fifo_len_ok m ->
  exists m', run os m = Ret tt m'.
Proof.
  induction os as [|o os IH]; intros m Hos Hsz Hlen; simpl.
  - eexists. reflexivity.
  - apply Forall_cons in Hos as [Ho Hos]. unfold mbind, M_bind.
    destruct (step_legal_returns o m Ho Hsz Hlen) as (m1 & Hstep).
    rewrite Hstep. apply IH; eauto using step_sized, step_fifo_len_ok.
Qed.

(** A plain register: what a write stores and what a read returns. *)
Lemma uart_write_plain r v size m :
  exists m', uart_write (reg_offset r) v size m = Ret tt m'
    /\ reg_value r (uart m') = to_uint32 v
    /\ (forall r', r' <> r -> reg_value r' (uart m') = reg_value r' (uart m))
    /\ rx_fifo (uart m') = rx_fifo (uart m)
    /\ rx_fifo_len (uart m') = rx_fifo_len (uart m)
    /\ trace m' = trace m.
Proof.
  destruct r; unfold reg_offset; eexists;
    (split; [first [apply uart_write_ie|apply uart_write_txctrl
                   |apply uart_write_rxctrl|apply uart_write_div]; exact Hlabels|]);
    simpl; repeat split; intros [] Hne; (reflexivity || contradiction).
Qed.

Lemma uart_read_plain r size m :
  uart_read (reg_offset r) size m = Ret (to_uint64 (reg_value r (uart m))) m.
Proof.
  destruct r; unfold reg_offset; simpl;
    first [apply uart_read_ie|apply uart_read_txctrl
          |apply uart_read_rxctrl|apply uart_read_div]; exact Hlabels.
Qed.

End Legal.

Section Streams.
Context {hdr : sifive_uart_h}.

(** Delivering any number of bytes: the FIFO keeps the oldest 8 of what
    was waiting and what arrived, and each byte beyond costs a warning. *)
Lemma deliver_overflow bs : forall m,
  rx_fifo_sized m -> fifo_len_ok m ->
  exists m', deliver bs m = Ret tt m'
    /\ rx_fifo_sized m' /\ fifo_len_ok m'
    /\ fifo (uart m') = take 8 (fifo (uart m) ++ bs)
    /\ trace m'
       = trace m ++ replicate (length (fifo (uart m) ++ bs) - 8)
                              (printf dropped_char_warning)
    /\ (ie (uart m'), txctrl (uart m'), rxctrl (uart m'), div (uart m'))
       = (ie (uart m), txctrl (uart m), rxctrl (uart m), div (uart m)).
Proof.
  induction bs as [|b bs IH]; intros m Hsz Hlen.
  - exists m. simpl. rewrite app_nil_r.
    pose proof (fifo_length (uart m)) as Hfl.
    unfold rx_fifo_sized in Hsz. unfold fifo_len_ok in Hlen.
    rewrite Hsz in Hfl. specialize (Hfl ltac:(lia)).
    rewrite take_ge by lia.
    replace (length (fifo (uart m)) - 8)%nat with 0%nat by lia.
    simpl. rewrite app_nil_r.
    repeat split; first [reflexivity|exact Hsz|apply Hlen].
  - pose proof (fifo_length (uart m)) as Hfl.
    pose proof Hsz as Hsz'. pose proof Hlen as Hlen'.
    unfold rx_fifo_sized in Hsz'. unfold fifo_len_ok in Hlen'.
    rewrite Hsz' in Hfl. specialize (Hfl ltac:(lia)).
    simpl. unfold mbind, M_bind.
    destruct (Z_lt_le_dec (rx_fifo_len (uart m)) 8) as [Hroom|Hfull].
    + rewrite uart_rx_room by (auto; lia).
      destruct (IH (mkMachine (pushed b (uart m)) (irq_level (pushed b (uart m)))
                              (trace m)))
        as (m' & Hrun & Hsz1 & Hlen1 & Hq & Ht & Hregs).
      * unfold rx_fifo_sized. simpl. rewrite length_insert. exact Hsz'.
      * unfold fifo_len_ok. simpl. lia.
      * exists m'. simpl in *. rewrite fifo_pushed in Hq, Ht by lia.
        rewrite <- app_assoc in Hq, Ht. simpl in Hq, Ht.
        repeat split; auto; apply Hlen1.
    + rewrite uart_rx_full by lia.
      destruct (IH (mkMachine (uart m) (irq m)
                              (trace m ++ [printf dropped_char_warning])))
        as (m' & Hrun & Hsz1 & Hlen1 & Hq & Ht & Hregs); [exact Hsz|exact Hlen|].
      exists m'. simpl in *.
      repeat split; auto; try apply Hlen1.
      * rewrite Hq. rewrite !take_app_le by lia. reflexivity.
      * rewrite Ht, <- app_assoc. f_equal.
        rewrite !length_app. simpl.
        replace (length (fifo (uart m)) + S (length bs) - 8)%nat
          with (S (length (fifo (uart m)) + length bs - 8)) by lia.
        reflexivity.
Qed.

(** Any number of reads of RXFIFO: the waiting bytes, oldest first, then
    the sentinel; the backend hears of each byte taken, once. *)
Lemma read_rxfifo_any k : forall m,
  rx_fifo_sized m -> fifo_len_ok m ->
  exists m', read_rxfifo k m
             = Ret (take k (byte_val <$> fifo (uart m))
                    ++ replicate (k - length (fifo (uart m))) rxfifo_empty_flag) m'
    /\ rx_fifo_sized m' /\ fifo_len_ok m'
    /\ fifo (uart m') = drop k (fifo (uart m))
    /\ trace m'
       = trace m ++ replicate (min k (length (fifo (uart m)))) chr_fe_accept_input
    /\ (ie (uart m'), txctrl (uart m'), rxctrl (uart m'), div (uart m'))
       = (ie (uart m), txctrl (uart m), rxctrl (uart m), div (uart m)).
Proof.
  induction k as [|k IH]; intros m Hsz Hlen.
  - exists m. simpl. rewrite app_nil_r. auto 10.
  - simpl. unfold mbind, M_bind.
    destruct (uart_read_rxfifo_wf m 4 Hsz Hlen)
      as [[E ->]|(b & q & Hq & Hpos & Hp & ->)].
    + destruct (IH m Hsz Hlen) as (m' & -> & Hsz1 & Hlen1 & Hq1 & Ht & Hregs).
      assert (Hnil : fifo (uart m) = []) by (unfold fifo; rewrite E; reflexivity).
      rewrite Hnil in *. simpl in *. rewrite drop_nil in Hq1.
      exists m'. unfold mret, M_ret. simpl. rewrite Nat.sub_0_r in *.
      rewrite Nat.min_0_r in Ht. rewrite take_nil. simpl.
      repeat split; auto; apply Hlen1.
    + pose proof Hsz as Hsz'. pose proof Hlen as Hlen'.
      unfold rx_fifo_sized in Hsz'. unfold fifo_len_ok in Hlen'.
      destruct (IH (mkMachine (popped (uart m)) (irq_level (popped (uart m)))
                              (trace m ++ [chr_fe_accept_input])))
        as (m' & -> & Hsz1 & Hlen1 & Hq1 & Ht & Hregs).
      * unfold rx_fifo_sized. cbn [uart]. rewrite popped_sized; lia.
      * unfold fifo_len_ok. simpl. lia.
      * exists m'. unfold mret, M_ret. cbn [uart trace] in *.
        rewrite Hp in *. rewrite Hq. simpl.
        repeat split; auto; try apply Hlen1.
        rewrite Ht, <- app_assoc. reflexivity.
Qed.

End Streams.

(** ** Further properties of the handlers *)

(** X1 (the stored registers do not interfere).  Of IE, TXCTRL, RXCTRL
    and DIV, a write to one changes what a read of that one returns, to
    the low 32 bits of the value written, and changes nothing of what a
    read of any of the other three returns. *)
Theorem plain_registers_independent {hdr : sifive_uart_h} (m : Machine)
    (r r' : plain_reg) (v size size' : Z) :
  labels_distinct ->
  exists m1,
    uart_write (reg_offset r) v size m = Ret tt m1
    /\ uart_read (reg_offset r) size' m1 = Ret (v mod 2 ^ 32) m1
    /\ (r' <> r ->
        exists x, uart_read (reg_offset r') size' m = Ret x m
                  /\ uart_read (reg_offset r') size' m1 = Ret x m1).
Proof.
  intros Hlabels.
  destruct (uart_write_plain Hlabels r v size m) as (m1 & Hw & Hv & Hother & _).
  exists m1. split; [exact Hw|]. split.
  - rewrite uart_read_plain by exact Hlabels. rewrite Hv.
    rewrite to_uint64_small by (pose proof (to_uint32_range v); lia).
    reflexivity.
  - intros Hne. eexists. split; [apply uart_read_plain, Hlabels|].
    rewrite uart_read_plain by exact Hlabels. rewrite (Hother r' Hne).
    reflexivity.
Qed.

Lemma plain_registers_independent_witness :
  exists m1,
    uart_write (hdr := spec_register_map) 0x10 0xABCD 4 full_machine = Ret tt m1
    /\ uart_read (hdr := spec_register_map) 0x10 4 m1 = Ret 0xABCD m1
    /\ (reg_div <> reg_txctrl ->
        exists x, uart_read (hdr := spec_register_map) 0x18 4 full_machine
                  = Ret x full_machine
                  /\ uart_read (hdr := spec_register_map) 0x18 4 m1 = Ret x m1).
Proof.
  apply (plain_registers_independent (hdr := spec_register_map) full_machine
           reg_txctrl reg_div 0xABCD 4 4).
  unfold labels_distinct. by_decision.
Defined.

(** X2 (IP follows the FIFO and covers the line).  After any sequence of
    operations on a fresh controller, a read of IP changes nothing and
    returns the RXWM pending bit when a byte is waiting and 0 when none
    is, whatever [ie] holds; and whenever the line is raised the read is
    not 0. *)
Theorem ip_read_covers_line {hdr : sifive_uart_h} (os : list op)
    (m : Machine) (size : Z) :
  labels_distinct -> to_uint64 SIFIVE_UART_IP_RXWM <> 0 ->
  run os fresh_machine = Ret tt m ->
  exists r,
    uart_read (case_label SIFIVE_UART_IP) size m = Ret r m
    /\ (rx_fifo_len (uart m) = 0 -> r = 0)
    /\ (rx_fifo_len (uart m) <> 0 -> r = to_uint64 SIFIVE_UART_IP_RXWM)
    /\ (irq m = true -> r <> 0).
Proof.
  intros Hlabels Hbit Hrun.
  pose proof (run_irq_level os fresh_machine m eq_refl Hrun) as Hirq.
  eexists. split; [apply uart_read_ip, Hlabels|].
  unfold irq_level in Hirq.
  destruct (Z.eqb_spec (rx_fifo_len (uart m)) 0) as [E|E]; simpl.
  - split; [reflexivity|]. split; [contradiction|].
    rewrite Hirq, andb_false_r. discriminate.
  - split; [contradiction|]. split; [reflexivity|]. intros _. exact Hbit.
Qed.

Lemma ip_read_covers_line_witness :
  exists r,
    uart_read (hdr := spec_register_map) 0x0C 4
      (mkMachine (pushed x41 (set_ie 2 (uart fresh_machine))) true [])
    = Ret r (mkMachine (pushed x41 (set_ie 2 (uart fresh_machine))) true [])
    /\ (1 = 0 -> r = 0)
    /\ (1 <> 0 -> r = 2)
    /\ (true = true -> r <> 0).
Proof.
  apply (ip_read_covers_line (hdr := spec_register_map)
           [bus_write 0x08 2 4; chr_read [x41] 1]).
  - unfold labels_distinct. by_decision.
  - vm_compute. discriminate.
  - reflexivity.
Defined.

(** X3 (no spurious interrupt).  After any sequence of operations on a
    fresh controller the line is raised only if a byte is waiting and
    [ie] has a bit of [IE_RXWM] set: never with the FIFO empty, never
    with the interrupt disabled.  This holds whatever the header's
    constants are. *)
Theorem line_raised_only_when_pending {hdr : sifive_uart_h} (os : list op)
    (m : Machine) :
  run os fresh_machine = Ret tt m -> irq m = true ->
  rx_fifo_len (uart m) <> 0
  /\ Z.land (ie (uart m)) (to_uint32 SIFIVE_UART_IE_RXWM) <> 0.
Proof.
  intros Hrun Hraised.
  pose proof (run_irq_level os fresh_machine m eq_refl Hrun) as Hirq.
  rewrite Hraised in Hirq. unfold irq_level in Hirq.
  symmetry in Hirq. apply andb_prop in Hirq as [Hie Hlen].
  apply negb_true_iff in Hie, Hlen.
  apply Z.eqb_neq in Hie, Hlen. auto.
Qed.

Lemma line_raised_only_when_pending_witness :
  rx_fifo_len (pushed x41 (set_ie 2 (uart fresh_machine))) <> 0
  /\ Z.land (ie (pushed x41 (set_ie 2 (uart fresh_machine))))
            (to_uint32 (SIFIVE_UART_IE_RXWM (sifive_uart_h := spec_register_map)))
     <> 0.
Proof.
  apply (line_raised_only_when_pending (hdr := spec_register_map)
           [bus_write 0x08 2 4; chr_read [x41] 1]
           (mkMachine (pushed x41 (set_ie 2 (uart fresh_machine))) true [])).
  - reflexivity.
  - reflexivity.
Defined.

(** X4 (reads are free of effects, but for a pop).  A read that returns
    leaves the whole machine as it was, unless it is a read of RXFIFO
    with a byte waiting. *)
Theorem read_changes_only_on_pop {hdr : sifive_uart_h} (m m' : Machine)
    (addr size r : Z) :
  uart_read addr size m = Ret r m' ->
  m' = m
  \/ (addr = case_label SIFIVE_UART_RXFIFO /\ rx_fifo_len (uart m) <> 0).
Proof.
  intros Hr.
  destruct (Z.eq_dec addr (case_label SIFIVE_UART_RXFIFO)) as [->|Hne].
  - destruct (Z.eq_dec (rx_fifo_len (uart m)) 0) as [E|E]; [|auto].
    rewrite uart_read_rxfifo_empty in Hr by exact E.
    injection Hr as _ <-. auto.
  - left. eapply uart_read_other_unchanged; eassumption.
Qed.

Lemma read_changes_only_on_pop_witness :
  full_machine = full_machine
  \/ (0x08 = case_label (SIFIVE_UART_RXFIFO (sifive_uart_h := spec_register_map))
      /\ rx_fifo_len (uart full_machine) <> 0).
Proof.
  apply (read_changes_only_on_pop (hdr := spec_register_map)
           full_machine full_machine 0x08 4 0).
  reflexivity.
Defined.

(** X5 (writes keep off the receive side).  A write that returns changes
    neither the array nor the length of the FIFO, never notifies the
    backend of room and never prints: the output is as before, or longer
    by the one byte sent. *)
Theorem write_keeps_fifo {hdr : sifive_uart_h} (m m' : Machine)
    (addr v size : Z) :
  uart_write addr v size m = Ret tt m' ->
  rx_fifo (uart m') = rx_fifo (uart m)
  /\ rx_fifo_len (uart m') = rx_fifo_len (uart m)
  /\ (trace m' = trace m
      \/ exists b, trace m' = trace m ++ [chr_fe_write [b]]).
Proof.
  destruct (uart_write_cases addr v size m)
    as [[b ->]|[->|[(s' & -> & Ha & Hl & _)|[e ->]]]];
    intros [= <-]; simpl; eauto.
Qed.

Lemma write_keeps_fifo_witness :
  rx_fifo (set_div 7 (uart full_machine)) = rx_fifo (uart full_machine)
  /\ rx_fifo_len (set_div 7 (uart full_machine)) = rx_fifo_len (uart full_machine)
  /\ ([] = trace full_machine
      \/ exists b, [] = trace full_machine ++ [chr_fe_write [b]]).
Proof.
  apply (write_keeps_fifo (hdr := spec_register_map) full_machine
           (mkMachine (set_div 7 (uart full_machine)) false []) 0x18 7 4).
  reflexivity.
Defined.

(** X6 (the FIFO is a queue of at most 8 bytes).  Whatever operations
    the bus and the backend issue, in whatever order, the bytes waiting
    afterwards are what a queue gives that takes the first byte of each
    delivery while it holds fewer than 8 and gives up its oldest byte at
    each read of RXFIFO. *)
Theorem fifo_refines_queue {hdr : sifive_uart_h} (os : list op)
    (m m' : Machine) :
  rx_fifo_sized m -> fifo_len_ok m ->
  run os m = Ret tt m' ->
  fifo (uart m') = queue_run os (fifo (uart m)).
Proof. apply run_queue. Qed.

Lemma fifo_refines_queue_witness :
  fifo (popped (pushed x42 (pushed x41 (uart fresh_machine))))
  = queue_run (hdr := spec_register_map)
      [chr_read [x41] 1; bus_write 0x04 0x58 4; chr_read [x42; x43] 2;
       bus_read 0x00 4]
      (fifo (uart fresh_machine)).
Proof.
  apply (fifo_refines_queue (hdr := spec_register_map)
           [chr_read [x41] 1; bus_write 0x04 0x58 4; chr_read [x42; x43] 2;
            bus_read 0x00 4]
           fresh_machine
           (mkMachine (popped (pushed x42 (pushed x41 (uart fresh_machine))))
                      false
                      [chr_fe_write [x58]; chr_fe_accept_input])).
  - reflexivity.
  - unfold fifo_len_ok. simpl. lia.
  - reflexivity.
Defined.

Lemma byte_val_bit31 b : Z.testbit (byte_val b) 31 = false.
Proof.
  pose proof (byte_val_range b) as Hb.
  apply Z.bits_above_log2; [lia|].
  destruct (Z.eq_dec (byte_val b) 0) as [->|Hnz]; [simpl; lia|].
  apply Z.log2_lt_pow2; lia.
Qed.

(** X7 (a read of RXFIFO takes the oldest byte).  With the bytes
    [b :: q] waiting, a read of RXFIFO returns [b] as a number below 256,
    so with bit 31 clear, leaves [q] waiting, tells the backend once that
    there is room again, re-evaluates the line and keeps the registers;
    a flow-control query right after answers 1. *)
Theorem rxfifo_read_pops_oldest {hdr : sifive_uart_h} (m : Machine)
    (b : byte) (q : list byte) (size : Z) :
  rx_fifo_sized m -> fifo_len_ok m -> fifo (uart m) = b :: q ->
  exists m',
    uart_read (case_label SIFIVE_UART_RXFIFO) size m = Ret (byte_val b) m'
    /\ 0 <= byte_val b < 256
    /\ Z.testbit (byte_val b) 31 = false
    /\ fifo (uart m') = q
    /\ rx_fifo_len (uart m') = rx_fifo_len (uart m) - 1
    /\ (ie (uart m'), txctrl (uart m'), rxctrl (uart m'), div (uart m'))
       = (ie (uart m), txctrl (uart m), rxctrl (uart m), div (uart m))
    /\ trace m' = trace m ++ [chr_fe_accept_input]
    /\ irq m' = irq_level (uart m')
    /\ uart_can_rx m' = Ret 1 m'.
Proof.
  intros Hsz Hlen Hq.
  destruct (uart_read_rxfifo_wf m size Hsz Hlen)
    as [[E _]|(b' & q' & Hq' & Hpos & Hp & Hr)].
  - unfold fifo in Hq. rewrite E in Hq. discriminate.
  - rewrite Hq in Hq'. injection Hq' as <- <-.
    eexists. split; [exact Hr|]. cbn [uart trace irq].
    split; [apply byte_val_range|]. split; [apply byte_val_bit31|].
    split; [exact Hp|]. repeat split.
    unfold uart_can_rx, sizeof_rx_fifo. monad_unfold. simpl.
    unfold fifo_len_ok in Hlen.
    destruct (Z.ltb_spec (rx_fifo_len (uart m) - 1) 8); [reflexivity|lia].
Qed.

Lemma rxfifo_read_pops_oldest_witness :
  exists m',
    uart_read (hdr := spec_register_map) 0x00 4 full_machine = Ret 0x41 m'
    /\ 0 <= 0x41 < 256
    /\ Z.testbit 0x41 31 = false
    /\ fifo (uart m') = [x42; x43; x44; x45; x46; x47; x48]
    /\ rx_fifo_len (uart m') = 8 - 1
    /\ (ie (uart m'), txctrl (uart m'), rxctrl (uart m'), div (uart m'))
       = (0, 0, 0, 0)
    /\ trace m' = [chr_fe_accept_input]
    /\ irq m' = irq_level (hdr := spec_register_map) (uart m')
    /\ uart_can_rx m' = Ret 1 m'.
Proof.
  apply (rxfifo_read_pops_oldest (hdr := spec_register_map) full_machine
           x41 [x42; x43; x44; x45; x46; x47; x48] 4).
  - reflexivity.
  - unfold fifo_len_ok. simpl. lia.
  - reflexivity.
Defined.

(** X8 (bit 31 tells empty from data).  A read of RXFIFO always returns;
    bit 31 of the value is set exactly when no byte was waiting, and the
    value is below 256 otherwise. *)
Theorem rxfifo_flag_iff_empty {hdr : sifive_uart_h} (m : Machine) (size : Z) :
  rx_fifo_sized m -> fifo_len_ok m ->
  exists r m',
    uart_read (case_label SIFIVE_UART_RXFIFO) size m = Ret r m'
    /\ (Z.testbit r 31 = true <-> rx_fifo_len (uart m) = 0)
    /\ (rx_fifo_len (uart m) <> 0 -> 0 <= r < 256).
Proof.
  intros Hsz Hlen.
  destruct (uart_read_rxfifo_wf m size Hsz Hlen)
    as [[E Hr]|(b & q & Hq & Hpos & Hp & Hr)].
  - eexists _, _. split; [exact Hr|]. split; [|contradiction].
    split; [intros _; exact E|reflexivity].
  - eexists _, _. split; [exact Hr|].
    pose proof (byte_val_range b) as Hb.
    split; [|intros _; exact Hb].
    rewrite byte_val_bit31. split; [discriminate|lia].
Qed.

Lemma rxfifo_flag_iff_empty_witness :
  exists r m',
    uart_read (hdr := spec_register_map) 0x00 4 full_machine = Ret r m'
    /\ (Z.testbit r 31 = true <-> rx_fifo_len (uart full_machine) = 0)
    /\ (rx_fifo_len (uart full_machine) <> 0 -> 0 <= r < 256).
Proof.
  apply (rxfifo_flag_iff_empty (hdr := spec_register_map) full_machine 4).
  - reflexivity.
  - unfold fifo_len_ok. simpl. lia.
Defined.

(** X9 (no access outside the array).  From a machine whose array has
    its 8 slots and whose length is in range, no sequence of operations
    reaches outside an array, as long as each delivery hands over at
    least one byte: the loads, the store and the [memmove] all stay
    inside [rx_fifo] and the buffer. *)
Theorem run_stays_in_bounds {hdr : sifive_uart_h} (os : list op) (m : Machine) :
  Forall has_byte os -> rx_fifo_sized m -> fifo_len_ok m ->
  run os m <> Undefined.
Proof. apply run_defined. Qed.

Lemma run_stays_in_bounds_witness :
  run (hdr := spec_register_map)
    [chr_read [x41] 1; bus_read 0x00 4; bus_read 0x00 4; bus_write 0x40 0 4]
    fresh_machine
  <> Undefined.
Proof.
  apply (run_stays_in_bounds (hdr := spec_register_map)
           [chr_read [x41] 1; bus_read 0x00 4; bus_read 0x00 4;
            bus_write 0x40 0 4] fresh_machine).
  - repeat constructor.
  - reflexivity.
  - unfold fifo_len_ok. simpl. lia.
Defined.

(** X10 (legal accesses never stop the emulator).  With distinct
    register offsets, a sequence of reads on the register map, writes to
    TXFIFO, IE, TXCTRL, RXCTRL and DIV, deliveries of at least one byte
    and flow-control queries always runs to its end: neither [hw_error]
    nor an access outside an array can occur, however many bytes are
    delivered or read. *)
Theorem legal_runs_return {hdr : sifive_uart_h} (os : list op) (m : Machine) :
  labels_distinct -> Forall legal os ->
  rx_fifo_sized m -> fifo_len_ok m ->
  exists m', run os m = Ret tt m'.
Proof. intros Hlabels. apply run_legal_returns, Hlabels. Qed.

Lemma legal_runs_return_witness :
  exists m',
    run (hdr := spec_register_map)
      [bus_read 0x00 4; chr_read [x41; x42] 2; bus_write 0x08 2 4;
       bus_read 0x0C 4; chr_can_read; bus_write 0x04 0x21 4]
      full_machine
    = Ret tt m'.
Proof.
  apply (legal_runs_return (hdr := spec_register_map)
           [bus_read 0x00 4; chr_read [x41; x42] 2; bus_write 0x08 2 4;
            bus_read 0x0C 4; chr_can_read; bus_write 0x04 0x21 4]
           full_machine).
  - unfold labels_distinct. by_decision.
  - repeat (apply Forall_cons; split); try apply Forall_nil; simpl;
      first [by_decision | discriminate | exact I].
  - reflexivity.
  - unfold fifo_len_ok. simpl. lia.
Defined.

(** X11 (the flow-control answer is the truth about the next delivery).
    On the same machine, [uart_can_rx] answers non-zero exactly when a
    delivery would be stored: if it answers non-zero the first byte is
    queued and nothing is printed, and if it answers 0 the byte is
    dropped with the warning and the device is unchanged. *)
Theorem can_rx_predicts_rx {hdr : sifive_uart_h} (m : Machine) (b : byte)
    (rest : list byte) (size : Z) :
  rx_fifo_sized m -> fifo_len_ok m ->
  exists r m',
    uart_can_rx m = Ret r m
    /\ uart_rx (b :: rest) size m = Ret tt m'
    /\ (r <> 0 ->
        fifo (uart m') = fifo (uart m) ++ [b] /\ trace m' = trace m)
    /\ (r = 0 ->
        uart m' = uart m /\ irq m' = irq m
        /\ trace m' = trace m ++ [printf dropped_char_warning]).
Proof.
  intros Hsz Hlen. pose proof Hsz as Hsz'. pose proof Hlen as Hlen'.
  unfold rx_fifo_sized in Hsz'. unfold fifo_len_ok in Hlen'.
  unfold uart_can_rx, sizeof_rx_fifo. monad_unfold.
  destruct (Z.ltb_spec (rx_fifo_len (uart m)) 8) as [Hroom|Hfull].
  - eexists _, _. split; [reflexivity|].
    split; [apply uart_rx_room; auto; lia|]. simpl.
    split; [intros _|discriminate].
    split; [apply fifo_pushed; lia|reflexivity].
  - eexists _, _. split; [reflexivity|].
    split; [apply uart_rx_full; lia|]. simpl.
    split; [contradiction|auto].
Qed.

Lemma can_rx_predicts_rx_witness :
  exists r m',
    uart_can_rx full_machine = Ret r full_machine
    /\ uart_rx (hdr := spec_register_map) [x49] 1 full_machine = Ret tt m'
    /\ (r <> 0 ->
        fifo (uart m') = fifo (uart full_machine) ++ [x49]
        /\ trace m' = trace full_machine)
    /\ (r = 0 ->
        uart m' = uart full_machine /\ irq m' = irq full_machine
        /\ trace m' = trace full_machine ++ [printf dropped_char_warning]).
Proof.
  apply (can_rx_predicts_rx (hdr := spec_register_map) full_machine x49 [] 1).
  - reflexivity.
  - unfold fifo_len_ok. simpl. lia.
Defined.

(** X12 (an overrun keeps the oldest bytes).  Into an empty FIFO the
    backend may push any number of bytes: the first 8 are kept and read
    back in order, each byte beyond the 8th is dropped with one warning,
    and each byte read back costs one notice to the backend; the
    registers are unchanged. *)
Theorem overrun_keeps_oldest {hdr : sifive_uart_h} (m : Machine)
    (bs : list byte) :
  rx_fifo_sized m -> rx_fifo_len (uart m) = 0 ->
  exists m',
    (deliver bs;; read_rxfifo (min 8 (length bs))) m
    = Ret (byte_val <$> take 8 bs) m'
    /\ rx_fifo_len (uart m') = 0
    /\ trace m'
       = trace m ++ replicate (length bs - 8) (printf dropped_char_warning)
                 ++ replicate (min 8 (length bs)) chr_fe_accept_input
    /\ (ie (uart m'), txctrl (uart m'), rxctrl (uart m'), div (uart m'))
       = (ie (uart m), txctrl (uart m), rxctrl (uart m), div (uart m)).
Proof.
  intros Hsz Hlen.
  assert (Hok : fifo_len_ok m) by (unfold fifo_len_ok; lia).
  assert (Hnil : fifo (uart m) = []) by (unfold fifo; rewrite Hlen; reflexivity).
  destruct (deliver_overflow bs m Hsz Hok)
    as (m1 & Hdel & Hsz1 & Hlen1 & Hq1 & Ht1 & Hregs1).
  rewrite Hnil in Hq1, Ht1. simpl in Hq1, Ht1.
  destruct (read_rxfifo_any (min 8 (length bs)) m1 Hsz1 Hlen1)
    as (m' & Hread & Hsz2 & Hlen2 & Hq2 & Ht2 & Hregs2).
  assert (Hl : length (fifo (uart m1)) = min 8 (length bs))
    by (rewrite Hq1; apply length_take).
  rewrite Hl in Hread, Ht2.
  rewrite Nat.sub_diag in Hread. rewrite Nat.min_id in Ht2.
  rewrite Hq1 in Hread, Hq2.
  rewrite take_ge in Hread by (rewrite length_fmap, length_take; lia).
  cbn [replicate] in Hread. rewrite app_nil_r in Hread.
  exists m'. unfold mbind, M_bind. rewrite Hdel, Hread.
  split; [reflexivity|]. split.
  - pose proof (fifo_length (uart m')) as Hfl.
    unfold rx_fifo_sized in Hsz2. unfold fifo_len_ok in Hlen2.
    rewrite Hsz2 in Hfl. specialize (Hfl ltac:(lia)).
    rewrite Hq2, length_drop, length_take in Hfl. lia.
  - split; [|congruence].
    rewrite Ht2, Ht1, <- app_assoc. reflexivity.
Qed.

Lemma overrun_keeps_oldest_witness :
  exists m',
    (deliver (hdr := spec_register_map)
       [x41; x42; x43; x44; x45; x46; x47; x48; x49; x4a];;
     read_rxfifo (hdr := spec_register_map) 8) fresh_machine
    = Ret [0x41; 0x42; 0x43; 0x44; 0x45; 0x46; 0x47; 0x48] m'
    /\ rx_fifo_len (uart m') = 0
    /\ trace m'
       = [] ++ replicate 2 (printf dropped_char_warning)
            ++ replicate 8 chr_fe_accept_input
    /\ (ie (uart m'), txctrl (uart m'), rxctrl (uart m'), div (uart m'))
       = (0, 0, 0, 0).
Proof.
  apply (overrun_keeps_oldest (hdr := spec_register_map) fresh_machine
           [x41; x42; x43; x44; x45; x46; x47; x48; x49; x4a]).
  - reflexivity.
  - reflexivity.
Defined.

(** X13 (reading on past the last byte).  Any number [k] of reads of
    RXFIFO returns the waiting bytes, oldest first, up to [k] of them,
    and then the empty flag for each read that finds nothing; what was
    not read stays queued, and the backend is told of room once for each
    byte taken and never for an empty read. *)
Theorem read_rxfifo_stream {hdr : sifive_uart_h} (m : Machine) (k : nat) :
  rx_fifo_sized m -> fifo_len_ok m ->
  exists m',
    read_rxfifo k m
    = Ret (take k (byte_val <$> fifo (uart m))
           ++ replicate (k - length (fifo (uart m))) rxfifo_empty_flag) m'
    /\ fifo (uart m') = drop k (fifo (uart m))
    /\ trace m'
       = trace m ++ replicate (min k (length (fifo (uart m)))) chr_fe_accept_input.
Proof.
  intros Hsz Hlen.
  destruct (read_rxfifo_any k m Hsz Hlen) as (m' & Hr & _ & _ & Hq & Ht & _).
  eauto.
Qed.

Lemma read_rxfifo_stream_witness :
  exists m',
    read_rxfifo (hdr := spec_register_map) 10 full_machine
    = Ret ([0x41; 0x42; 0x43; 0x44; 0x45; 0x46; 0x47; 0x48]
           ++ [0x80000000; 0x80000000]) m'
    /\ fifo (uart m') = []
    /\ trace m' = [] ++ replicate 8 chr_fe_accept_input.
Proof.
  apply (read_rxfifo_stream (hdr := spec_register_map) full_machine 10).
  - reflexivity.
  - unfold fifo_len_ok. simpl. lia.
Defined.
